(** * Intcode virtual machine: a shallow embedding of [2019/intcode/intcode.go]

    The Go package is embedded function by function.  Go's [int] is taken to
    be the 64-bit two's-complement integer of the usual targets: values are
    [Z], and every [+], [*], [+=] and [++] of the source is followed by
    [wrap_int].  Slices are references into a store of backing arrays, so
    that the sharing between a caller's buffer and a VM, and the absence of
    sharing after [Copy], can be stated.  A Go panic is a separate outcome
    from a returned [error]. *)

From Stdlib Require Import ZArith Lia Ascii String.
From stdpp Require Import base option list gmap.

Local Open Scope Z_scope.

(** ** Machine integers *)

Definition int_min : Z := - 2 ^ 63.
Definition int_max : Z := 2 ^ 63 - 1.

(** Reduction of a mathematical integer to the value a Go [int] holds. *)
Definition wrap_int (z : Z) : Z := (z + 2 ^ 63) mod 2 ^ 64 - 2 ^ 63.

Definition int_add (a b : Z) : Z := wrap_int (a + b).
Definition int_mul (a b : Z) : Z := wrap_int (a * b).

(** ** Slices and the store of backing arrays *)

Definition loc := nat.

(** A slice header: backing array, offset of element 0, length.  The
    capacity is left out: no slice of a VM is ever appended to or resliced. *)
Record slice := Slice { s_arr : loc; s_off : nat; s_len : nat }.

Abbreviation heap := (list (list Z)).

(** [len(s)] *)
Definition len (s : slice) : Z := Z.of_nat (s_len s).

Definition in_bounds (s : slice) (j : Z) : bool := (0 <=? j) && (j <? len s).

(** [s[j]] as an expression; [None] is the index-out-of-range panic. *)
Definition sl_get (h : heap) (s : slice) (j : Z) : option Z :=
  if in_bounds s j then
    match h !! s_arr s with
    | Some a => a !! (s_off s + Z.to_nat j)%nat
    | None => None
    end
  else None.

(** [s[j] = v] *)
Definition sl_set (h : heap) (s : slice) (j v : Z) : option heap :=
  match sl_get h s j, h !! s_arr s with
  | Some _, Some a =>
      Some (<[s_arr s := <[(s_off s + Z.to_nat j)%nat := v]> a]> h)
  | _, _ => None
  end.

(** All the elements of a slice, in order. *)
Definition sl_read (h : heap) (s : slice) : list Z :=
  take (s_len s) (drop (s_off s) (default [] (h !! s_arr s))).

(** The slice lies within an allocated backing array. *)
Definition slice_ok (h : heap) (s : slice) : Prop :=
  exists a, h !! s_arr s = Some a /\ (s_off s + s_len s <= length a)%nat.

(** [make([]int, n)]: a fresh zeroed array. *)
Definition make (h : heap) (n : nat) : heap * slice :=
  (h ++ [replicate n 0], Slice (length h) 0 n).

(** The builtin [copy(dst, src)]: copies [min(len(dst), len(src))] elements
    and behaves like memmove when the two slices overlap, i.e. the source
    elements are all read before any is written. *)
Definition copy (h : heap) (dst src : slice) : heap :=
  let n := Nat.min (s_len dst) (s_len src) in
  let xs := take n (sl_read h src) in
  match h !! s_arr dst with
  | Some a => <[s_arr dst := list_inserts (s_off dst) xs a]> h
  | None => h
  end.

(** ** Opcode table *)

(** The closures stored in the field [x] of the table capture the VM type,
    which itself stores the decoded [op]; they are represented by a tag that
    [call] below interprets.  [x_nil] is the nil func of the zero [op]. *)
Inductive opfunc :=
  | x_nil | x_add | x_mult | x_input | x_output | x_jump_if_true
  | x_jump_if_false | x_less_than | x_equals | x_adjust_relative_base | x_halt.

Record op := Op { name : string; code : Z; pc : Z; x : opfunc }.

Definition ops : gmap Z op :=
  list_to_map
    [ (1, Op "add" 1 3 x_add);
      (2, Op "mult" 2 3 x_mult);
      (3, Op "input" 3 1 x_input);
      (4, Op "output" 4 1 x_output);
      (5, Op "jump-if-true" 5 2 x_jump_if_true);
      (6, Op "jump-if-false" 6 2 x_jump_if_false);
      (7, Op "less-than" 7 3 x_less_than);
      (8, Op "equals" 8 3 x_equals);
      (9, Op "adjust-relative-base" 9 1 x_adjust_relative_base);
      (99, Op "halt" 99 0 x_halt) ].

(** [type pmode int] with its three constants. *)
Definition pmode := Z.
Definition position : pmode := 1.
Definition immediate : pmode := 2.
Definition relative : pmode := 3.

Record instruction := Instruction { ins_op : op; pmodes : list pmode }.

(** The zero values [op{}] and [instruction{}]. *)
Definition op_zero : op := Op "" 0 0 x_nil.
Definition instruction_zero : instruction := Instruction op_zero [].

(** ** Errors and panics *)

Section Machine.

(** [H] is the state of the host that the two hooks act upon, [E] the type
    of the errors a hook may return.  The hooks are closures of the caller:
    they are taken to work on the host only, not on the arrays of the VM.
    The sentinel [halt] is unexported, so a hook defined outside the package
    cannot return it: hook errors are kept apart from it by [ErrHook]. *)
Context {H E : Type}.

Inductive error :=
  | ErrUnknownOpcode (opcode inp : Z)
  | ErrUnknownParamMode (inp : Z)
  | ErrNoInput
  | ErrNoOutput
  | ErrHook (e : E)
  | halt.

Inductive panic :=
  | IndexOutOfRange
  | UnknownPmode
  | NilFunc
  | GotHere (p l : Z).

(** ** Instruction decoder *)

(** The body of [switch in % 10]; [None] is the [default] branch. *)
Definition mode_of_digit (d : Z) : option pmode :=
  if d =? 0 then Some position
  else if d =? 1 then Some immediate
  else if d =? 2 then Some relative
  else None.

(** The loop [for i := 0; i < op.pc; i++], with [k] iterations left. *)
Fixpoint parse_modes (k : nat) (ins : instruction) (inp : Z)
  : instruction * option error :=
  match k with
  | O => (ins, None)
  | S k' =>
      match mode_of_digit (Z.rem inp 10) with
      | Some m =>
          parse_modes k' (Instruction (ins_op ins) (pmodes ins ++ [m]))
            (Z.quot inp 10)
      | None => (ins, Some (ErrUnknownParamMode inp))
      end
  end.

Definition parseInstruction (inp : Z) : instruction * option error :=
  let ins := instruction_zero in
  let opcode := Z.rem inp 100 in
  match ops !! opcode with
  | None => (ins, Some (ErrUnknownOpcode opcode inp))
  | Some o =>
      let ins := Instruction o (pmodes ins) in
      let inp := Z.quot inp 100 in
      parse_modes (Z.to_nat (pc o)) ins inp
  end.

(** ** The VM *)

Record VM := mkVM {
  program : slice;
  mem : slice;
  pos : Z;
  ins : instruction;
  Input : option (H -> (Z * option E) * H);
  Output : option (Z -> H -> option E * H);
  jumped : bool;
  relbase : Z
}.

Definition with_pos (p : Z) (v : VM) : VM :=
  mkVM (program v) (mem v) p (ins v) (Input v) (Output v) (jumped v) (relbase v).
Definition with_ins (i : instruction) (v : VM) : VM :=
  mkVM (program v) (mem v) (pos v) i (Input v) (Output v) (jumped v) (relbase v).
Definition with_jumped (b : bool) (v : VM) : VM :=
  mkVM (program v) (mem v) (pos v) (ins v) (Input v) (Output v) b (relbase v).
Definition with_relbase (r : Z) (v : VM) : VM :=
  mkVM (program v) (mem v) (pos v) (ins v) (Input v) (Output v) (jumped v) r.

(** Everything a method of the VM can read or change: the receiver, the
    backing arrays, and the host behind the hooks. *)
Record world := World { vm : VM; hp : heap; host : H }.

Definition on_vm (f : VM -> VM) (w : world) : world :=
  World (f (vm w)) (hp w) (host w).

(** A method either completes with a value or panics; both leave a world. *)
Inductive result (A : Type) :=
  | Done (a : A) (w : world)
  | Panicked (p : panic) (w : world).
Arguments Done {A} a w.
Arguments Panicked {A} p w.

Definition M (A : Type) : Type := world -> result A.

Definition ret {A} (a : A) : M A := fun w => Done a w.
Definition bind {A B} (m : M A) (k : A -> M B) : M B :=
  fun w => match m w with
           | Done a w' => k a w'
           | Panicked p w' => Panicked p w'
           end.
Definition throw {A} (p : panic) : M A := fun w => Panicked p w.
Definition gets {A} (f : VM -> A) : M A := fun w => Done (f (vm w)) w.
Definition modify (f : VM -> VM) : M unit := fun w => Done tt (on_vm f w).

Notation "'let*' a ':=' m 'in' k" := (bind m (fun a => k))
  (at level 10, a name, m at level 100, k at level 200).
Notation "m ';;' k" := (bind m (fun _ => k))
  (at level 100, k at level 200, right associativity).

(** [v.mem[j]] read and written. *)
Definition load (j : Z) : M Z := fun w =>
  match sl_get (hp w) (mem (vm w)) j with
  | Some z => Done z w
  | None => Panicked IndexOutOfRange w
  end.

Definition store (j val : Z) : M unit := fun w =>
  match sl_set (hp w) (mem (vm w)) j val with
  | Some h' => Done tt (World (vm w) h' (host w))
  | None => Panicked IndexOutOfRange w
  end.

(** [v.ins.pmodes[i]] *)
Definition pmode_at (i : Z) : M pmode := fun w =>
  match (if 0 <=? i then pmodes (ins (vm w)) !! Z.to_nat i else None) with
  | Some m => Done m w
  | None => Panicked IndexOutOfRange w
  end.

Definition val (i : Z) : M Z :=
  let* p := gets pos in
  load (int_add p i).

Definition mval (i : Z) : M Z :=
  let* m := pmode_at i in
  if m =? position then
    let* a := val i in load a
  else if m =? immediate then
    val i
  else if m =? relative then
    let* r := gets relbase in
    let* a := val i in
    load (int_add r a)
  else throw UnknownPmode.

Definition set (i val' : Z) : M unit :=
  let* j := val i in
  let* m := pmode_at i in
  let* r := gets relbase in
  let j := if m =? relative then int_add j r else j in
  store j val'.

Definition jump (p : Z) : M unit :=
  modify (with_pos p) ;;
  modify (with_jumped true).

(** Calls to the two hooks, once known to be non-nil. *)
Definition call_input (f : H -> (Z * option E) * H) : M (Z * option E) :=
  fun w => let '(r, h') := f (host w) in Done r (World (vm w) (hp w) h').

Definition call_output (f : Z -> H -> option E * H) (a : Z) : M (option E) :=
  fun w => let '(r, h') := f a (host w) in Done r (World (vm w) (hp w) h').

(** [o.x(v)] for each closure of the table. *)
Definition call (f : opfunc) : M (option error) :=
  match f with
  | x_nil => throw NilFunc
  | x_add =>
      let* a := mval 0 in
      let* b := mval 1 in
      set 2 (int_add a b) ;;
      ret None
  | x_mult =>
      let* a := mval 0 in
      let* b := mval 1 in
      set 2 (int_mul a b) ;;
      ret None
  | x_input =>
      let* i := gets Input in
      match i with
      | None => ret (Some ErrNoInput)
      | Some f =>
          let* r := call_input f in
          match snd r with
          | Some e => ret (Some (ErrHook e))
          | None => set 0 (fst r) ;; ret None
          end
      end
  | x_output =>
      let* o := gets Output in
      match o with
      | None => ret (Some ErrNoOutput)
      | Some f =>
          let* a := mval 0 in
          let* r := call_output f a in
          ret (option_map ErrHook r)
      end
  | x_jump_if_true =>
      let* a := mval 0 in
      if a >? 0 then
        let* t := mval 1 in
        jump t ;; ret None
      else ret None
  | x_jump_if_false =>
      let* a := mval 0 in
      if a =? 0 then
        let* t := mval 1 in
        jump t ;; ret None
      else ret None
  | x_less_than =>
      let* a := mval 0 in
      let* b := mval 1 in
      set 2 (if a <? b then 1 else 0) ;;
      ret None
  | x_equals =>
      let* a := mval 0 in
      let* b := mval 1 in
      set 2 (if a =? b then 1 else 0) ;;
      ret None
  | x_adjust_relative_base =>
      let* r := gets relbase in
      let* a := mval 0 in
      modify (with_relbase (int_add r a)) ;;
      ret None
  | x_halt => ret (Some halt)
  end.

Definition stepInstruction : M (option error) :=
  let* v := gets id in
  (if (code (ins_op (ins v)) >? 0) && negb (jumped v)
   then modify (with_pos (int_add (pos v) (pc (ins_op (ins v)))))
   else ret tt) ;;
  modify (with_jumped false) ;;
  let* raw := val 0 in
  match parseInstruction raw with
  | (_, Some err) => ret (Some err)
  | (i, None) =>
      modify (with_ins i) ;;
      let* p := gets pos in
      modify (with_pos (int_add p 1)) ;;
      ret None
  end.

(** One pass through the body of the loop of the method [Run]: either the
    loop goes on, or the method leaves by a [return] or a panic. *)
Inductive next :=
  | Continue (w : world)
  | Stop (r : result (option error)).

Definition is_halt (e : error) : bool :=
  match e with halt => true | _ => false end.

Definition iteration (w : world) : next :=
  match stepInstruction w with
  | Panicked p w1 => Stop (Panicked p w1)
  | Done (Some err) w1 => Stop (Done (Some err) w1)
  | Done None w1 =>
      match call (x (ins_op (ins (vm w1)))) w1 with
      | Panicked p w2 => Stop (Panicked p w2)
      | Done (Some err) w2 =>
          Stop (Done (if is_halt err then None else Some err) w2)
      | Done None w2 => Continue w2
      end
  end.

(** The loop condition [v.pos <= len(v.mem)]. *)
Definition guard (w : world) : bool := pos (vm w) <=? len (mem (vm w)).

(** The method [Run] of the VM.  The loop need not terminate: [fuel] bounds
    the number of passes, and [None] means the bound was reached. *)
Fixpoint VM_Run (fuel : nat) (w : world) : option (result (option error)) :=
  match fuel with
  | O => None
  | S fuel' =>
      if guard w then
        match iteration w with
        | Continue w' => VM_Run fuel' w'
        | Stop r => Some r
        end
      else Some (Panicked (GotHere (pos (vm w)) (len (mem (vm w)))) w)
  end.

(** The method [Copy]: the receiver is [vm w]; the new VM is the value. *)
Definition Copy : M VM := fun w =>
  let v := vm w in
  let '(h1, p) := make (hp w) (s_len (program v)) in
  let '(h2, m) := make h1 (s_len (mem v)) in
  let vm' := mkVM p m (pos v) (ins v) (Input v) (Output v)
               (jumped v) (relbase v) in
  let h3 := copy h2 (program vm') (program v) in
  let h4 := copy h3 (mem vm') (mem v) in
  Done vm' (World v h4 (host w)).

Definition NewVM (program' mem' : slice)
    (input : option (H -> (Z * option E) * H))
    (output : option (Z -> H -> option E * H)) (h : heap) : VM * heap :=
  let h' := copy h mem' program' in
  (mkVM program' mem' 0 instruction_zero input output false 0, h').

(** The package-level [Run]. *)
Definition Run (fuel : nat) (program' mem' : slice)
    (input : option (H -> (Z * option E) * H))
    (output : option (Z -> H -> option E * H)) (h : heap) (hst : H)
  : option (result (option error)) :=
  let '(v, h') := NewVM program' mem' input output h in
  VM_Run fuel (World v h' hst).

(** ** Observing a run *)

(** The instruction the next pass of the loop fetches from: the position
    after the pending advance of [stepInstruction], as [val] indexes it. *)
Definition pending (v : VM) : bool :=
  (code (ins_op (ins v)) >? 0) && negb (jumped v).

Definition next_pos (v : VM) : Z :=
  if pending v then int_add (pos v) (pc (ins_op (ins v))) else pos v.

Definition fetch_addr (v : VM) : Z := int_add (next_pos v) 0.

(** The world [stepInstruction] leaves when it fails or panics, and the
    one it leaves after decoding [i]. *)
Definition before_decode (w : world) : world :=
  on_vm (fun v => with_jumped false (with_pos (next_pos v) v)) w.

Definition after_decode (i : instruction) (w : world) : world :=
  on_vm (fun v => with_pos (int_add (next_pos v) 1)
                    (with_ins i (with_jumped false v))) w.

(** The state of the naive semantics that corresponds to [w]: its position
    is where the next opcode word is. *)
Definition to_naive (w : world) : world :=
  on_vm (fun v => with_pos (next_pos v) v) w.

(** [steps k w w']: [k] passes of the loop of [VM_Run], none of which
    leaves it, lead from [w] to [w']. *)
Inductive steps : nat -> world -> world -> Prop :=
  | steps_O w : steps O w w
  | steps_S k w w' w'' :
      guard w = true -> iteration w = Continue w' -> steps k w' w'' ->
      steps (S k) w w''.

(** The pass started in [w] decodes the halt instruction and leaves [w']. *)
Definition halts_at (w w' : world) : Prop :=
  guard w = true /\ stepInstruction w = Done None w' /\
  code (ins_op (ins (vm w'))) = 99.

(** The pass started in [w] fails with [e], at decoding or in the effect of
    the decoded instruction, and leaves [w']. *)
Definition fails_at (w : world) (e : error) (w' : world) : Prop :=
  guard w = true /\ e <> halt /\
  (stepInstruction w = Done (Some e) w' \/
   exists w1, stepInstruction w = Done None w1 /\
              call (x (ins_op (ins (vm w1)))) w1 = Done (Some e) w').

(** The sequence of instructions executed, each with the index of its
    opcode word. *)
Fixpoint VM_trace (fuel : nat) (w : world) : list (Z * instruction) :=
  match fuel with
  | O => []
  | S fuel' =>
      if guard w then
        match stepInstruction w with
        | Done None w1 =>
            (fetch_addr (vm w), ins (vm w1)) ::
            match iteration w with
            | Continue w' => VM_trace fuel' w'
            | Stop _ => []
            end
        | _ => []
        end
      else []
  end.

(** What a caller sees of a finished run: the returned error, or that the
    run panicked, with the arrays, the host and the relative base. *)
Definition observe (r : result (option error))
  : option (option error) * heap * H * Z :=
  match r with
  | Done e w => (Some e, hp w, host w, relbase (vm w))
  | Panicked _ w => (None, hp w, host w, relbase (vm w))
  end.

(** ** The naive program-counter discipline

    A second semantics, written after the specification's description: the
    position always designates the next opcode word; the instruction found
    there is decoded, its effect runs on the operand words that follow, and
    unless the effect jumped the position moves by the whole instruction
    length [1 + pc] at once.  The decoder, the effects and the loop
    condition are those of the engine; only the handling of the position
    differs, and no instruction is remembered from one pass to the next. *)

Definition naive_iteration (w : world) : next :=
  match val 0 w with
  | Panicked p w' => Stop (Panicked p w')
  | Done raw _ =>
      match parseInstruction raw with
      | (_, Some err) => Stop (Done (Some err) w)
      | (i, None) =>
          let p := pos (vm w) in
          let w1 :=
            on_vm (fun v => with_jumped false
                              (with_pos (int_add p 1) (with_ins i v))) w in
          match call (x (ins_op i)) w1 with
          | Panicked q w2 => Stop (Panicked q w2)
          | Done (Some err) w2 =>
              Stop (Done (if is_halt err then None else Some err) w2)
          | Done None w2 =>
              Continue (if jumped (vm w2) then w2
                        else on_vm (with_pos (int_add p (1 + pc (ins_op i)))) w2)
          end
      end
  end.

Fixpoint naive_Run (fuel : nat) (w : world) : option (result (option error)) :=
  match fuel with
  | O => None
  | S fuel' =>
      if guard w then
        match naive_iteration w with
        | Continue w' => naive_Run fuel' w'
        | Stop r => Some r
        end
      else Some (Panicked (GotHere (pos (vm w)) (len (mem (vm w)))) w)
  end.

Fixpoint naive_trace (fuel : nat) (w : world) : list (Z * instruction) :=
  match fuel with
  | O => []
  | S fuel' =>
      if guard w then
        match val 0 w with
        | Done raw _ =>
            match parseInstruction raw with
            | (i, None) =>
                (int_add (pos (vm w)) 0, i) ::
                match naive_iteration w with
                | Continue w' => naive_trace fuel' w'
                | Stop _ => []
                end
            | _ => []
            end
        | _ => []
        end
      else []
  end.

End Machine.

Arguments error : clear implicits.
Arguments VM : clear implicits.
Arguments world : clear implicits.
Arguments result : clear implicits.
Arguments next : clear implicits.
Arguments M : clear implicits.
Arguments Done {H E A} a w.
Arguments Panicked {H E A} p w.

(** ** Program text

    [Parse] and [buildOut] work on Go strings, which are sequences of bytes:
    here lists of [ascii].  The four library functions they call come
    first, each for the arguments it is called with. *)

Definition comma : ascii := ","%char.
Definition newline : ascii := "010"%char.

(** [strings.ReplaceAll] with the newline as the text to replace and the
    empty text to put instead: every newline byte is dropped. *)
Fixpoint ReplaceAll_newline (s : list ascii) : list ascii :=
  match s with
  | [] => []
  | c :: r =>
      if Ascii.eqb c newline then ReplaceAll_newline r
      else c :: ReplaceAll_newline r
  end.

(** [strings.Split] with the comma as separator: the fields between the
    commas, one more than there are commas; the empty string gives one
    empty field. *)
Fixpoint Split_comma (s : list ascii) : list (list ascii) :=
  match s with
  | [] => [[]]
  | c :: r =>
      if Ascii.eqb c comma then [] :: Split_comma r
      else match Split_comma r with
           | part :: parts => (c :: part) :: parts
           | [] => [[c]]
           end
  end.

(** The value of a decimal digit byte. *)
Definition digit_of (c : ascii) : option Z :=
  let n := Z.of_nat (nat_of_ascii c) in
  if (48 <=? n) && (n <=? 57) then Some (n - 48) else None.

(** The scan of [strconv.Atoi] over the digits: [n = n*10 + digit]. *)
Fixpoint digits_value (n : Z) (s : list ascii) : option Z :=
  match s with
  | [] => Some n
  | c :: r =>
      match digit_of c with
      | Some d => digits_value (n * 10 + d) r
      | None => None
      end
  end.

(** [strconv.Atoi(s)]: an optional sign, then one decimal digit or more and
    nothing else, the value fitting an [int]; [None] stands for the error
    returned in every other case. *)
Definition Atoi (s : list ascii) : option Z :=
  let '(neg, body) :=
    match s with
    | c :: r =>
        if Ascii.eqb c "-"%char then (true, r)
        else if Ascii.eqb c "+"%char then (false, r)
        else (false, s)
    | [] => (false, s)
    end in
  match body with
  | [] => None
  | _ :: _ =>
      match digits_value 0 body with
      | Some n =>
          let v := if neg then - n else n in
          if (int_min <=? v) && (v <=? int_max) then Some v else None
      | None => None
      end
  end.

(** The byte of a decimal digit. *)
Definition digit_char (d : Z) : ascii := ascii_of_nat (48 + Z.to_nat d).

(** The digit loop of [strconv.Itoa]: the digits of [u] are produced from
    the least significant one and put in front of [acc].  [fuel] bounds the
    number of digits. *)
Fixpoint format_digits (fuel : nat) (u : Z) (acc : list ascii) : list ascii :=
  match fuel with
  | O => acc
  | S fuel' =>
      if u <? 10 then digit_char u :: acc
      else format_digits fuel' (u / 10) (digit_char (u mod 10) :: acc)
  end.

(** [strconv.Itoa(i)]: the decimal digits of [i], after a minus sign when
    it is negative.  An [int] has at most 19 digits. *)
Definition Itoa (i : Z) : list ascii :=
  if i <? 0 then "-"%char :: format_digits 20 (- i) []
  else format_digits 20 i [].

(** The loop of [Parse] over the fields, [program] being the slice built
    so far. *)
Fixpoint parse_parts (parts : list (list ascii)) (program : list Z)
  : option (list Z) :=
  match parts with
  | [] => Some program
  | p :: rest =>
      match Atoi p with
      | Some i => parse_parts rest (program ++ [i])
      | None => None
      end
  end.

(** [Parse]; [None] stands for the error of the first field [Atoi]
    rejects. *)
Definition Parse (input : list ascii) : option (list Z) :=
  let input := ReplaceAll_newline input in
  let parts := Split_comma input in
  parse_parts parts [].

(** The loop of [buildOut] from index [i] on, [out] being the string built
    so far. *)
Fixpoint buildOut_from (i : nat) (program : list Z) (out : list ascii)
  : list ascii :=
  match program with
  | [] => out
  | p :: rest =>
      let out := if (0 <? i)%nat then out ++ [comma] else out in
      buildOut_from (S i) rest (out ++ Itoa p)
  end.

Definition buildOut (program : list Z) : list ascii :=
  buildOut_from 0 program [].

(** The fields put back together, a comma between two of them. *)
Definition join_commas (parts : list (list ascii)) : list ascii :=
  match parts with
  | [] => []
  | p :: rest => p ++ concat (map (cons comma) rest)
  end.

(** The bytes that can occur in a text [Parse] accepts. *)
Definition program_char (c : ascii) : Prop :=
  digit_of c <> None \/ c = "-"%char \/ c = "+"%char \/
  c = comma \/ c = newline.

(** The number of commas of a text. *)
Definition commas (s : list ascii) : nat :=
  length (List.filter (fun c => Ascii.eqb c comma) s).

(** ** What a run may touch *)

(** [only_writes s h h']: from [h] to [h'] no array has been added, removed
    or resized, and the only cells that may differ are those of the window
    of the slice [s] in its backing array. *)
Definition only_writes (s : slice) (h h' : heap) : Prop :=
  length h' = length h /\
  forall (l : loc) (a : list Z), h !! l = Some a ->
    exists a', h' !! l = Some a' /\ length a' = length a /\
      forall k : nat,
        l <> s_arr s \/ (k < s_off s)%nat \/ (s_off s + s_len s <= k)%nat ->
        a' !! k = a !! k.

Section Frames.
Context {H E : Type}.

(** The world a method leaves, however it ends. *)
Definition result_world {A} (r : result H E A) : world H E :=
  match r with
  | Done _ w => w
  | Panicked _ w => w
  end.

(** The fields of a VM that say where it works and whom it calls. *)
Definition same_config (v v' : VM H E) : Prop :=
  program v' = program v /\ mem v' = mem v /\
  Input v' = Input v /\ Output v' = Output v.

(** The modes a decoder can produce. *)
Definition known_mode (m : pmode) : Prop :=
  m = position \/ m = immediate \/ m = relative.

(** [frame w w']: from [w] to [w'] the VM works on the same slices with the
    same hooks, and only cells of its memory may have changed. *)
Definition frame (w w' : world H E) : Prop :=
  same_config (vm w) (vm w') /\ only_writes (mem (vm w)) (hp w) (hp w').

(** [writes_cell w t v w']: from [w] to [w'] the cell of index [t] of the
    memory has received [v], and nothing else has changed: not the VM, not
    the host, not another cell of the memory. *)
Definition writes_cell (w : world H E) (t v : Z) (w' : world H E) : Prop :=
  vm w' = vm w /\ host w' = host w /\
  sl_get (hp w') (mem (vm w)) t = Some v /\
  forall j, j <> t ->
    sl_get (hp w') (mem (vm w)) j = sl_get (hp w) (mem (vm w)) j.

(** [same_state w w']: the two VMs are in the same state as far as their
    behaviour goes: same position, instruction, flag, relative base and
    hooks, same host, and memories that read the same, each within its
    array. *)
Definition same_state (w w' : world H E) : Prop :=
  pos (vm w') = pos (vm w) /\ ins (vm w') = ins (vm w) /\
  jumped (vm w') = jumped (vm w) /\ relbase (vm w') = relbase (vm w) /\
  Input (vm w') = Input (vm w) /\ Output (vm w') = Output (vm w) /\
  host w' = host w /\
  slice_ok (hp w) (mem (vm w)) /\ slice_ok (hp w') (mem (vm w')) /\
  sl_read (hp w') (mem (vm w')) = sl_read (hp w) (mem (vm w)).

(** Two methods end alike: with the same value or the same panic, in the
    same state. *)
Definition same_result {A} (r r' : result H E A) : Prop :=
  match r, r' with
  | Done a w, Done a' w' => a = a' /\ same_state w w'
  | Panicked p w, Panicked p' w' => p = p' /\ same_state w w'
  | _, _ => False
  end.

Definition respects {A} (m : M H E A) : Prop :=
  forall w w', same_state w w' -> same_result (m w) (m w').

(** A method preserves the relation [P] when [P] holds between the world it
    starts in and the one it leaves, whether it completes or panics. *)
Definition preserves (P : world H E -> world H E -> Prop) {A}
    (m : M H E A) : Prop :=
  forall w, P w (result_world (m w)).

(** The primitive changes of state that may or may not preserve [P]. *)
Definition store_ok (P : world H E -> world H E -> Prop) : Prop :=
  forall j v, preserves P (store j v).
Definition pos_ok (P : world H E -> world H E -> Prop) : Prop :=
  forall p w, P w (on_vm (with_pos p) w).
Definition jumped_ok (P : world H E -> world H E -> Prop) : Prop :=
  forall b w, P w (on_vm (with_jumped b) w).
Definition ins_ok (P : world H E -> world H E -> Prop) : Prop :=
  forall i w, P w (on_vm (with_ins i) w).
Definition relbase_ok (P : world H E -> world H E -> Prop) : Prop :=
  forall r w, P w (on_vm (with_relbase r) w).
Definition hooks_ok (P : world H E -> world H E -> Prop) : Prop :=
  forall w (h' : H), P w (World (vm w) (hp w) h').

End Frames.

(** ** Vocabulary of the statements *)

(** The opcodes of the table. *)
Definition opcodes : list Z := [1; 2; 3; 4; 5; 6; 7; 8; 9; 99].

(** The decimal digit of [inp] that carries the mode of parameter [i]: the
    digit of weight [10 ^ (2 + i)]. *)
Definition mode_digit (inp : Z) (i : nat) : Z :=
  (inp / 10 ^ (2 + Z.of_nat i)) mod 10.

(** ** Running small programs *)

Module Examples.

(** A host that feeds inputs from a queue and records outputs. *)
Record io := IO { ins_q : list Z; outs : list Z }.

Definition input_hook (s : io) : (Z * option string) * io :=
  match ins_q s with
  | z :: q => ((z, None), IO q (outs s))
  | [] => ((0, Some "no more input"%string), s)
  end.

Definition output_hook (a : Z) (s : io) : option string * io :=
  (None, IO (ins_q s) (outs s ++ [a])).

(** The store holding [prog] and a zeroed buffer of [size] cells, and the
    two slices over them. *)
Definition heap_of (prog : list Z) (size : nat) : heap :=
  [prog; replicate size 0].
Definition prog_slice (prog : list Z) : slice := Slice 0%nat 0%nat (length prog).
Definition mem_slice (size : nat) : slice := Slice 1%nat 0%nat size.

(** Runs [prog] in a buffer of [size] cells. *)
Definition run_list (fuel : nat) (prog : list Z) (size : nat) (inputs : list Z)
  : option (result io string (option (error string))) :=
  Run fuel (prog_slice prog) (mem_slice size)
    (Some input_hook) (Some output_hook) (heap_of prog size) (IO inputs []).

(** The returned error or panic, the buffer and the outputs of a run. *)
Definition summary (r : option (result io string (option (error string)))) :=
  match r with
  | Some (Done e w) => Some (inl e, hp w !! 1%nat, outs (host w))
  | Some (Panicked p w) => Some (inr p, hp w !! 1%nat, outs (host w))
  | None => None
  end.

(** The world in which [prog] starts, its buffer holding [cells]. *)
Definition boot (prog cells inputs : list Z) : world io string :=
  let '(v, h) := NewVM (prog_slice prog) (mem_slice (length cells))
                   (Some input_hook) (Some output_hook) [prog; cells] in
  World v h (IO inputs []).

(** The world after [k] passes of the loop. *)
Fixpoint advance (k : nat) (w : world io string) : world io string :=
  match k with
  | O => w
  | S k' =>
      match iteration w with
      | Continue w' => advance k' w'
      | Stop _ => w
      end
  end.

(** The world in which the effect of the next instruction runs. *)
Definition decoded (w : world io string) : world io string :=
  match stepInstruction w with
  | Done _ w' => w'
  | Panicked _ w' => w'
  end.

(** A store with a program of five words and a buffer of three cells. *)
Definition short_buffer : heap := [[1; 2; 3; 4; 5]; [7; 8; 9]].

(** A store with a program of two words and a buffer of four cells. *)
Definition long_buffer : heap := [[1; 2]; [7; 8; 9; 10]].

(** [1,0,0,0,99], not yet started. *)
Definition add_world : world io string :=
  boot [1; 0; 0; 0; 99] (replicate 5 0) [].

(** [109,2000,204,5,99] with 77 in cell 2005, when the output instruction
    at index 2 is about to run. *)
Definition relbase_world : world io string :=
  decoded (advance 1
    (boot [109; 2000; 204; 5; 99]
       ([109; 2000; 204; 5; 99] ++ replicate 2000 0 ++ [77]) [])).

(** [11101,5,6,0,99]: an addition whose write parameter is in immediate
    mode, about to run. *)
Definition imm_write_world : world io string :=
  decoded (boot [11101; 5; 6; 0; 99] (replicate 5 0) []).

(** [1105,-1,5,104,1,99]: jump-if-true on a negative operand, about to
    run. *)
Definition neg_jump_world : world io string :=
  decoded (boot [1105; -1; 5; 104; 1; 99] (replicate 6 0) []).

(** [3,0,99] on a VM without hooks, not yet started. *)
Definition no_hook_world : world io string :=
  let '(v, h) := NewVM (prog_slice [3; 0; 99]) (mem_slice 3) None None
                   [[3; 0; 99]; [0; 0; 0]] in
  World v h (IO [] []).

(** [3,0,4,0,99] with 42 to read, not yet started. *)
Definition echo_world : world io string :=
  boot [3; 0; 4; 0; 99] (replicate 5 0) [42].

(** [1101,1,1,0] in four cells, not yet started. *)
Definition runaway_world : world io string :=
  boot [1101; 1; 1; 0] (replicate 4 0) [].

End Examples.

(** * Properties *)

(** ** Machine integers *)

Lemma wrap_int_range z : int_min <= wrap_int z <= int_max.
Proof.
  unfold wrap_int, int_min, int_max.
  pose proof (Z.mod_pos_bound (z + 2 ^ 63) (2 ^ 64) eq_refl). lia.
Qed.

Lemma wrap_int_small z : int_min <= z <= int_max -> wrap_int z = z.
Proof.
  unfold wrap_int, int_min, int_max. intros Hz.
  rewrite Z.mod_small; lia.
Qed.

Lemma wrap_int_idem z : wrap_int (wrap_int z) = wrap_int z.
Proof. apply wrap_int_small, wrap_int_range. Qed.

Lemma wrap_int_add_l a b : wrap_int (wrap_int a + b) = wrap_int (a + b).
Proof.
  unfold wrap_int.
  replace ((a + 2 ^ 63) mod 2 ^ 64 - 2 ^ 63 + b + 2 ^ 63)
    with ((a + 2 ^ 63) mod 2 ^ 64 + b) by lia.
  rewrite Zplus_mod_idemp_l. do 2 f_equal. lia.
Qed.

Lemma wrap_int_le z : 0 <= z -> wrap_int z <= z.
Proof.
  intros Hz. unfold wrap_int.
  pose proof (Z.mod_le (z + 2 ^ 63) (2 ^ 64)). lia.
Qed.

Lemma int_add_small a b :
  int_min <= a + b <= int_max -> int_add a b = a + b.
Proof. apply wrap_int_small. Qed.

Lemma int_add_assoc_1 p k : int_add (int_add p 1) k = int_add p (1 + k).
Proof. unfold int_add. rewrite wrap_int_add_l. f_equal. lia. Qed.

(** ** The opcode table *)

Lemma ops_lookup k o :
  ops !! k = Some o <->
  (k = 1 /\ o = Op "add" 1 3 x_add) \/
  (k = 2 /\ o = Op "mult" 2 3 x_mult) \/
  (k = 3 /\ o = Op "input" 3 1 x_input) \/
  (k = 4 /\ o = Op "output" 4 1 x_output) \/
  (k = 5 /\ o = Op "jump-if-true" 5 2 x_jump_if_true) \/
  (k = 6 /\ o = Op "jump-if-false" 6 2 x_jump_if_false) \/
  (k = 7 /\ o = Op "less-than" 7 3 x_less_than) \/
  (k = 8 /\ o = Op "equals" 8 3 x_equals) \/
  (k = 9 /\ o = Op "adjust-relative-base" 9 1 x_adjust_relative_base) \/
  (k = 99 /\ o = Op "halt" 99 0 x_halt).
Proof.
  unfold ops. cbn [list_to_map foldr uncurry].
  rewrite !lookup_insert_Some, lookup_empty. naive_solver.
Qed.

Lemma ops_code k o : ops !! k = Some o -> code o = k.
Proof. rewrite ops_lookup. naive_solver. Qed.

Lemma ops_pc k o : ops !! k = Some o -> 0 <= pc o <= 3.
Proof. rewrite ops_lookup. intros Hk. decompose [and or] Hk; subst; simpl; lia. Qed.

Lemma ops_is_Some k : is_Some (ops !! k) <-> k ∈ opcodes.
Proof.
  unfold opcodes. rewrite !elem_of_cons, elem_of_nil. split.
  - intros [o Ho]. apply ops_lookup in Ho. naive_solver.
  - intros Hk. decompose [or] Hk; subst; try (eexists; reflexivity). contradiction.
Qed.

Lemma ops_None k : ops !! k = None <-> k ∉ opcodes.
Proof. rewrite <- ops_is_Some, eq_None_not_Some. reflexivity. Qed.

(** ** The instruction decoder *)

Section Decoder.
Context {E : Type}.

Lemma mode_of_digit_Some d m :
  mode_of_digit d = Some m <->
  (d = 0 /\ m = position) \/ (d = 1 /\ m = immediate) \/ (d = 2 /\ m = relative).
Proof.
  unfold mode_of_digit.
  destruct (Z.eqb_spec d 0); [split; [intros [= <-]|intros ?]; intuition (try lia; congruence)|].
  destruct (Z.eqb_spec d 1); [split; [intros [= <-]|intros ?]; intuition (try lia; congruence)|].
  destruct (Z.eqb_spec d 2); [split; [intros [= <-]|intros ?]; intuition (try lia; congruence)|].
  split; [discriminate|]. intuition lia.
Qed.

Lemma mode_of_digit_None d : mode_of_digit d = None <-> ~ 0 <= d <= 2.
Proof.
  unfold mode_of_digit.
  destruct (Z.eqb_spec d 0); [split; [discriminate|lia]|].
  destruct (Z.eqb_spec d 1); [split; [discriminate|lia]|].
  destruct (Z.eqb_spec d 2); [split; [discriminate|lia]|].
  split; [lia|reflexivity].
Qed.

(** The loop consumes the decimal digits of [q] from the least significant
    one, and stops at the first that is no mode. *)
Lemma parse_modes_digits k :
  forall (i0 : instruction) (q : Z), 0 <= q ->
  (exists ms,
      parse_modes (E:=E) k i0 q = (Instruction (ins_op i0) (pmodes i0 ++ ms), None) /\
      length ms = k /\
      forall i, (i < k)%nat ->
        mode_of_digit ((q / 10 ^ Z.of_nat i) mod 10) = ms !! i) \/
  (exists i i',
      (i < k)%nat /\
      mode_of_digit ((q / 10 ^ Z.of_nat i) mod 10) = None /\
      parse_modes (E:=E) k i0 q =
        (i', Some (ErrUnknownParamMode (q / 10 ^ Z.of_nat i)))).
Proof.
  induction k as [|k IH]; intros i0 q Hq.
  - left. exists []. cbn. rewrite app_nil_r. destruct i0. repeat split. lia.
  - cbn [parse_modes]. rewrite Z.rem_mod_nonneg by lia.
    destruct (mode_of_digit (q mod 10)) as [m|] eqn:Hm.
    + rewrite Z.quot_div_nonneg by lia.
      assert (Hq' : 0 <= q / 10) by (apply Z.div_pos; lia).
      destruct (IH (Instruction (ins_op i0) (pmodes i0 ++ [m])) (q / 10) Hq')
        as [(ms & Hp & Hl & Hd)|(i & i' & Hi & Hd & Hp)].
      * left. exists (m :: ms). cbn [ins_op pmodes] in Hp.
        rewrite Hp, <- app_assoc. repeat split; [cbn; lia|].
        intros [|i] Hi.
        -- cbn. rewrite Z.div_1_r. exact Hm.
        -- cbn [lookup list_lookup]. rewrite <- Hd by lia.
           rewrite Nat2Z.inj_succ, Z.pow_succ_r, <- Z.div_div by lia.
           reflexivity.
      * right. exists (S i), i'. split; [lia|].
        rewrite Nat2Z.inj_succ, Z.pow_succ_r, <- Z.div_div by lia.
        split; assumption.
    + right. exists 0%nat, i0. cbn. rewrite Z.div_1_r.
      repeat split; [lia|exact Hm].
Qed.

Lemma rem_100_pos inp : 0 < Z.rem inp 100 -> 0 < inp.
Proof.
  intros Hr. destruct (Z_lt_le_dec 0 inp) as [|Hle]; [assumption|].
  pose proof (Z.rem_nonpos inp 100). lia.
Qed.

Lemma opcodes_pos c : c ∈ opcodes -> 0 < c.
Proof.
  unfold opcodes. rewrite !elem_of_cons, elem_of_nil. lia.
Qed.

Lemma mode_digit_quot inp i :
  0 <= inp ->
  (Z.quot inp 100 / 10 ^ Z.of_nat i) mod 10 = mode_digit inp i.
Proof.
  intros Hi. unfold mode_digit.
  rewrite Z.quot_div_nonneg, Z.div_div, Z.pow_add_r by lia.
  reflexivity.
Qed.

End Decoder.

(** C2.  For every raw instruction word [inp], [parseInstruction] takes the
    opcode to be [inp % 100] (Go's remainder, which is [inp mod 100] on the
    non-negative words and is never an opcode on the negative ones).  It
    fails with the unknown-opcode error, carrying that opcode and the word,
    exactly when the opcode is none of 1..9, 99.  Otherwise the opcode's
    table entry [o] is found and either decoding succeeds with the entry and
    a mode list of exactly [pc o] modes, the mode of parameter [i] being
    position, immediate or relative as the decimal digit of weight
    [10 ^ (2 + i)] is 0, 1 or 2; or one of these [pc o] digits is none of
    0, 1, 2 and decoding fails with the unknown-parameter-mode error. *)
Theorem parseInstruction_decodes {E : Type} (inp : Z) :
  let opcode := Z.rem inp 100 in
  (0 <= inp -> opcode = inp mod 100) /\
  (inp < 0 -> opcode ∉ opcodes) /\
  (forall c w,
      snd (parseInstruction (E:=E) inp) = Some (ErrUnknownOpcode c w) <->
      (opcode ∉ opcodes) /\ c = opcode /\ w = inp) /\
  (opcode ∈ opcodes ->
   exists o, ops !! opcode = Some o /\ code o = opcode /\
     ((exists ms,
         parseInstruction (E:=E) inp = (Instruction o ms, None) /\
         Z.of_nat (length ms) = pc o /\
         forall i, (i < length ms)%nat ->
           (mode_digit inp i = 0 /\ ms !! i = Some position) \/
           (mode_digit inp i = 1 /\ ms !! i = Some immediate) \/
           (mode_digit inp i = 2 /\ ms !! i = Some relative)) \/
      (exists i i' w,
         Z.of_nat i < pc o /\ ~ (0 <= mode_digit inp i <= 2) /\
         parseInstruction (E:=E) inp = (i', Some (ErrUnknownParamMode w))))).
Proof.
  intros opcode. subst opcode.
  assert (Hneg : inp < 0 -> Z.rem inp 100 ∉ opcodes).
  { intros Hlt Hin. apply opcodes_pos, rem_100_pos in Hin. lia. }
  assert (Hvalid : Z.rem inp 100 ∈ opcodes ->
    exists o, ops !! Z.rem inp 100 = Some o /\ code o = Z.rem inp 100 /\
     ((exists ms,
         parseInstruction (E:=E) inp = (Instruction o ms, None) /\
         Z.of_nat (length ms) = pc o /\
         forall i, (i < length ms)%nat ->
           (mode_digit inp i = 0 /\ ms !! i = Some position) \/
           (mode_digit inp i = 1 /\ ms !! i = Some immediate) \/
           (mode_digit inp i = 2 /\ ms !! i = Some relative)) \/
      (exists i i' w,
         Z.of_nat i < pc o /\ ~ (0 <= mode_digit inp i <= 2) /\
         parseInstruction (E:=E) inp = (i', Some (ErrUnknownParamMode w))))).
  { intros Hin.
    assert (Hpos : 0 <= inp) by (apply opcodes_pos, rem_100_pos in Hin; lia).
    apply ops_is_Some in Hin as [o Ho].
    exists o. split; [exact Ho|]. split; [eapply ops_code; exact Ho|].
    pose proof (ops_pc _ _ Ho) as Hpc.
    unfold parseInstruction. cbv zeta. rewrite Ho.
    assert (Hq : 0 <= Z.quot inp 100) by (apply Z.quot_pos; lia).
    destruct (parse_modes_digits (E:=E) (Z.to_nat (pc o))
                (Instruction o (pmodes instruction_zero)) _ Hq)
      as [(ms & Hp & Hl & Hd)|(i & i' & Hi & Hd & Hp)].
    - left. exists ms. rewrite Hp. split; [reflexivity|].
      split; [lia|]. intros i Hi.
      specialize (Hd i ltac:(lia)). rewrite mode_digit_quot in Hd by lia.
      destruct (ms !! i) as [m|] eqn:Hm.
      + apply mode_of_digit_Some in Hd.
        destruct Hd as [[-> ->]|[[-> ->]|[-> ->]]]; auto.
      + apply lookup_ge_None in Hm. lia.
    - right. exists i, i', (Z.quot inp 100 / 10 ^ Z.of_nat i).
      rewrite mode_digit_quot in Hd by lia.
      apply mode_of_digit_None in Hd.
      split; [lia|]. split; [exact Hd|exact Hp]. }
  split; [intros Hpos; apply Z.rem_mod_nonneg; lia|].
  split; [exact Hneg|]. split; [|exact Hvalid].
  intros c w. split.
  - intros Herr.
    destruct (ops !! Z.rem inp 100) as [o|] eqn:Ho.
    + exfalso.
      destruct (Hvalid ltac:(apply ops_is_Some; eauto))
        as (o' & _ & _ & [(ms & Hp & _)|(i & i' & w' & _ & _ & Hp)]);
        rewrite Hp in Herr; discriminate.
    + unfold parseInstruction in Herr. rewrite Ho in Herr.
      cbn in Herr. injection Herr as <- <-.
      split; [apply ops_None; exact Ho|]. split; reflexivity.
  - intros (Hnot & -> & ->). apply ops_None in Hnot.
    unfold parseInstruction. rewrite Hnot. reflexivity.
Qed.

(** ** Operand resolution *)

Section Operands.
Context {H E : Type}.
Implicit Types (w : world H E) (i j raw : Z).

Lemma pmode_at_Some w i m :
  0 <= i -> pmodes (ins (vm w)) !! Z.to_nat i = Some m ->
  pmode_at i w = Done m w.
Proof.
  intros Hi Hm. unfold pmode_at.
  destruct (Z.leb_spec 0 i); [|lia]. rewrite Hm. reflexivity.
Qed.

Lemma val_Some w i raw :
  sl_get (hp w) (mem (vm w)) (int_add (pos (vm w)) i) = Some raw ->
  val i w = Done raw w.
Proof. intros Hr. unfold val, bind, gets, load. rewrite Hr. reflexivity. Qed.

Lemma val_inv w w' i raw :
  val i w = Done raw w' ->
  w' = w /\ sl_get (hp w) (mem (vm w)) (int_add (pos (vm w)) i) = Some raw.
Proof.
  unfold val, bind, gets, load.
  destruct (sl_get _ _ _); [intros [= <- <-]; auto|discriminate].
Qed.

Lemma load_inv w w' j z :
  load j w = Done z w' -> w' = w /\ sl_get (hp w) (mem (vm w)) j = Some z.
Proof.
  unfold load. destruct (sl_get _ _ _); [intros [= <- <-]; auto|discriminate].
Qed.

Lemma mval_position w i raw :
  0 <= i -> pmodes (ins (vm w)) !! Z.to_nat i = Some position ->
  sl_get (hp w) (mem (vm w)) (int_add (pos (vm w)) i) = Some raw ->
  mval i w = load raw w.
Proof.
  intros Hi Hm Hr. unfold mval, bind.
  rewrite (pmode_at_Some _ _ _ Hi Hm). cbv beta iota.
  change (position =? position) with true. cbv beta iota.
  rewrite (val_Some _ _ _ Hr). reflexivity.
Qed.

Lemma mval_immediate w i raw :
  0 <= i -> pmodes (ins (vm w)) !! Z.to_nat i = Some immediate ->
  sl_get (hp w) (mem (vm w)) (int_add (pos (vm w)) i) = Some raw ->
  mval i w = Done raw w.
Proof.
  intros Hi Hm Hr. unfold mval, bind.
  rewrite (pmode_at_Some _ _ _ Hi Hm). cbv beta iota.
  change (immediate =? position) with false.
  change (immediate =? immediate) with true. cbv beta iota.
  apply val_Some, Hr.
Qed.

Lemma mval_relative w i raw :
  0 <= i -> pmodes (ins (vm w)) !! Z.to_nat i = Some relative ->
  sl_get (hp w) (mem (vm w)) (int_add (pos (vm w)) i) = Some raw ->
  mval i w = load (int_add (relbase (vm w)) raw) w.
Proof.
  intros Hi Hm Hr. unfold mval, bind.
  rewrite (pmode_at_Some _ _ _ Hi Hm). cbv beta iota.
  change (relative =? position) with false.
  change (relative =? immediate) with false.
  change (relative =? relative) with true. cbv beta iota. unfold gets.
  rewrite (val_Some _ _ _ Hr). reflexivity.
Qed.

(** A read never changes the world. *)
Lemma mval_inv w w' i z : mval i w = Done z w' -> w' = w.
Proof.
  unfold mval, bind, pmode_at, gets, throw.
  destruct (if 0 <=? i then _ else _) as [m|]; [|discriminate].
  destruct (m =? position).
  { destruct (val i w) as [a wa|] eqn:Hv; [|discriminate].
    apply val_inv in Hv as [-> _]. intros Hl. apply load_inv in Hl. tauto. }
  destruct (m =? immediate).
  { intros Hv. apply val_inv in Hv. tauto. }
  destruct (m =? relative); [|discriminate].
  destruct (val i w) as [a wa|] eqn:Hv; [|discriminate].
  apply val_inv in Hv as [-> _]. intros Hl. apply load_inv in Hl. tauto.
Qed.

Lemma set_store w i raw m v :
  0 <= i -> pmodes (ins (vm w)) !! Z.to_nat i = Some m ->
  sl_get (hp w) (mem (vm w)) (int_add (pos (vm w)) i) = Some raw ->
  set i v w =
  store (if m =? relative then int_add raw (relbase (vm w)) else raw) v w.
Proof.
  intros Hi Hm Hr. unfold set, bind.
  rewrite (val_Some _ _ _ Hr), (pmode_at_Some _ _ _ Hi Hm). reflexivity.
Qed.

(** The pass that decodes an instruction leaves the position one past the
    opcode word, and touches neither the arrays nor the relative base. *)
Lemma stepInstruction_Done w w1 :
  stepInstruction w = Done None w1 ->
  exists word,
    sl_get (hp w) (mem (vm w)) (fetch_addr (vm w)) = Some word /\
    parseInstruction (E:=E) word = (ins (vm w1), None) /\
    pos (vm w1) = int_add (fetch_addr (vm w)) 1 /\
    jumped (vm w1) = false /\
    hp w1 = hp w /\ host w1 = host w /\
    mem (vm w1) = mem (vm w) /\ program (vm w1) = program (vm w) /\
    relbase (vm w1) = relbase (vm w) /\
    Input (vm w1) = Input (vm w) /\ Output (vm w1) = Output (vm w).
Proof.
  unfold stepInstruction, fetch_addr, next_pos, pending, bind, gets, modify, ret, val, load.
  destruct w as [v h s]. cbn.
  destruct (_ && _); cbn;
    (destruct (sl_get h (mem v) _) as [word|] eqn:Hw; [|discriminate]);
    (destruct (parseInstruction word) as [i [e|]] eqn:Hp; [discriminate|]);
    intros [= <-]; cbn; exists word;
    unfold int_add in *; rewrite ?wrap_int_add_l, ?Z.add_0_r in *;
    rewrite ?wrap_int_idem; repeat split; try assumption; try reflexivity.
  rewrite wrap_int_add_l. reflexivity.
Qed.

End Operands.

(** ** Slices *)

Lemma sl_get_bounds h s j z : sl_get h s j = Some z -> 0 <= j < len s.
Proof.
  unfold sl_get, in_bounds.
  destruct (Z.leb_spec 0 j); destruct (Z.ltb_spec j (len s));
    cbn; try discriminate. lia.
Qed.

Lemma sl_get_past_end (h : heap) s j : len s <= j -> sl_get h s j = None.
Proof.
  intros Hj. destruct (sl_get h s j) as [z|] eqn:Hg; [|reflexivity].
  apply sl_get_bounds in Hg. lia.
Qed.

Lemma sl_get_elem h s j z :
  sl_get h s j = Some z ->
  exists a, h !! s_arr s = Some a /\ a !! (s_off s + Z.to_nat j)%nat = Some z.
Proof.
  unfold sl_get. destruct (in_bounds s j); [|discriminate].
  destruct (h !! s_arr s) as [a|]; [|discriminate]. eauto.
Qed.

Lemma sl_set_Some h s j z v :
  sl_get h s j = Some z ->
  exists a, h !! s_arr s = Some a /\
    sl_set h s j v =
      Some (<[s_arr s := <[(s_off s + Z.to_nat j)%nat := v]> a]> h).
Proof.
  intros Hg. destruct (sl_get_elem _ _ _ _ Hg) as (a & Ha & _).
  exists a. split; [exact Ha|]. unfold sl_set. rewrite Hg, Ha. reflexivity.
Qed.

Lemma sl_set_inv h s j v h' :
  sl_set h s j v = Some h' ->
  exists a z, h !! s_arr s = Some a /\ sl_get h s j = Some z /\
    h' = <[s_arr s := <[(s_off s + Z.to_nat j)%nat := v]> a]> h.
Proof.
  unfold sl_set. destruct (sl_get h s j) as [z|] eqn:Hg; [|discriminate].
  destruct (h !! s_arr s) as [a|] eqn:Ha; [|discriminate].
  intros [= <-]. eauto.
Qed.

(** Reading back the cell just written. *)
Lemma sl_get_set_same h s j v h' :
  sl_set h s j v = Some h' -> sl_get h' s j = Some v.
Proof.
  intros Hs. destruct (sl_set_inv _ _ _ _ _ Hs) as (a & z & Ha & Hg & ->).
  pose proof (sl_get_bounds _ _ _ _ Hg) as Hb.
  destruct (sl_get_elem _ _ _ _ Hg) as (a' & Ha' & Hz).
  rewrite Ha in Ha'. injection Ha' as <-.
  unfold sl_get, in_bounds.
  destruct (Z.leb_spec 0 j); [|lia]. destruct (Z.ltb_spec j (len s)); [|lia].
  cbn. rewrite list_lookup_insert_eq by (eapply lookup_lt_Some; exact Ha).
  apply list_lookup_insert_eq. eapply lookup_lt_Some; exact Hz.
Qed.

(** A write through one slice leaves every other backing array alone. *)
Lemma sl_set_other_array h s j v h' (l : loc) :
  sl_set h s j v = Some h' -> l <> s_arr s -> h' !! l = h !! l.
Proof.
  intros Hs Hl. destruct (sl_set_inv _ _ _ _ _ Hs) as (a & z & _ & _ & ->).
  apply list_lookup_insert_ne. congruence.
Qed.

Lemma sl_read_other_array h h' s :
  h' !! s_arr s = h !! s_arr s -> sl_read h' s = sl_read h s.
Proof. unfold sl_read. intros ->. reflexivity. Qed.

Lemma sl_get_other_array h h' s j :
  h' !! s_arr s = h !! s_arr s -> sl_get h' s j = sl_get h s j.
Proof. unfold sl_get. intros ->. reflexivity. Qed.

(** The elements of a slice within its array, one by one. *)
Lemma sl_read_lookup h s (k : nat) :
  slice_ok h s -> (k < s_len s)%nat ->
  sl_read h s !! k = sl_get h s (Z.of_nat k).
Proof.
  intros (a & Ha & Hlen) Hk. unfold sl_read, sl_get, in_bounds, len.
  rewrite Ha. cbn.
  destruct (Z.leb_spec 0 (Z.of_nat k)); [|lia].
  destruct (Z.ltb_spec (Z.of_nat k) (Z.of_nat (s_len s))); [|lia].
  cbn. rewrite lookup_take_lt, lookup_drop, Nat2Z.id by lia. reflexivity.
Qed.

Lemma length_sl_read h s : slice_ok h s -> length (sl_read h s) = s_len s.
Proof.
  intros (a & Ha & Hlen). unfold sl_read. rewrite Ha. cbn.
  rewrite length_take, length_drop. lia.
Qed.

(** ** Reads, writes and jumps *)

Section Resolution.
Context {H E : Type}.
Implicit Types (w : world H E) (i raw : Z).

(** C3.  With [raw] the word at [pos + i], [mval i] returns the memory
    cell at index [raw] in position mode, [raw] itself in immediate mode,
    and the memory cell at index [relbase + raw] in relative mode (each read
    of memory panics when the index is out of range).  The position these
    reads start from is one past the opcode word: it is what
    [stepInstruction] leaves after decoding the word at the fetch address.
    In particular adjust-relative-base with operand 2000 turns a relative
    base of 0 into 2000, and with base 2000 a relative-mode parameter whose
    raw word is 5 reads index 2005. *)
Theorem mval_resolves w i raw :
  0 <= i ->
  sl_get (hp w) (mem (vm w)) (int_add (pos (vm w)) i) = Some raw ->
  (pmodes (ins (vm w)) !! Z.to_nat i = Some position ->
     mval i w = load raw w) /\
  (pmodes (ins (vm w)) !! Z.to_nat i = Some immediate ->
     mval i w = Done raw w) /\
  (pmodes (ins (vm w)) !! Z.to_nat i = Some relative ->
     mval i w = load (int_add (relbase (vm w)) raw) w) /\
  (forall w0, stepInstruction w0 = Done None w ->
     exists word,
       sl_get (hp w0) (mem (vm w0)) (fetch_addr (vm w0)) = Some word /\
       parseInstruction (E:=E) word = (ins (vm w), None) /\
       pos (vm w) = int_add (fetch_addr (vm w0)) 1) /\
  (forall w0, relbase (vm w0) = 0 -> mval 0 w0 = Done 2000 w0 ->
     exists wa, call x_adjust_relative_base w0 = Done None wa /\
                relbase (vm wa) = 2000) /\
  (relbase (vm w) = 2000 -> raw = 5 ->
   pmodes (ins (vm w)) !! Z.to_nat i = Some relative ->
     mval i w = load 2005 w).
Proof.
  intros Hi Hraw.
  split; [intros Hm; apply mval_position; assumption|].
  split; [intros Hm; apply mval_immediate; assumption|].
  split; [intros Hm; apply mval_relative; assumption|].
  split.
  { intros w0 Hstep.
    destruct (stepInstruction_Done _ _ Hstep) as (word & Hw & Hp & Hpos & _).
    exists word. auto. }
  split.
  { intros w0 Hb Hv. eexists. split.
    - cbn [call]. unfold bind, gets. rewrite Hv. reflexivity.
    - cbn. rewrite Hb. reflexivity. }
  intros Hb -> Hm. rewrite (mval_relative _ _ _ Hi Hm Hraw), Hb. reflexivity.
Qed.

(** C9.  With [raw] the word at [pos + i] and [m] the mode of parameter
    [i], [set i v] stores [v] at index [raw] unless [m] is relative, in
    which case it stores at [raw + relbase]: immediate mode is resolved as
    position mode is.  An immediate-mode write whose raw word is a valid
    index therefore completes, and the cell at that index then holds [v]. *)
Theorem set_immediate_as_position w i raw m v :
  0 <= i ->
  sl_get (hp w) (mem (vm w)) (int_add (pos (vm w)) i) = Some raw ->
  pmodes (ins (vm w)) !! Z.to_nat i = Some m ->
  (m = position \/ m = immediate -> set i v w = store raw v w) /\
  (m = relative -> set i v w = store (int_add raw (relbase (vm w))) v w) /\
  (m = immediate ->
   forall z, sl_get (hp w) (mem (vm w)) raw = Some z ->
   exists h', set i v w = Done tt (World (vm w) h' (host w)) /\
              sl_get h' (mem (vm w)) raw = Some v).
Proof.
  intros Hi Hraw Hm. rewrite (set_store _ _ _ _ _ Hi Hm Hraw).
  split; [intros [->| ->]; reflexivity|].
  split; [intros ->; reflexivity|].
  intros -> z Hz. change (immediate =? relative) with false. cbv iota.
  destruct (sl_set_Some _ _ _ _ v Hz) as (a & Ha & Hs).
  eexists. unfold store. rewrite Hs. split; [reflexivity|].
  eapply sl_get_set_same. exact Hs.
Qed.

(** C1 (the code as it is).  With [a] the resolved first operand, the
    effect of opcode 5 jumps exactly when [a > 0]: the position becomes the
    resolved second operand and [jumped] is set, so that the next
    [stepInstruction] fetches at that position without advancing; when
    [a <= 0], zero or negative, the effect changes nothing.  The effect of
    opcode 6 jumps exactly when [a = 0]. *)
Theorem jump_effects w a :
  mval 0 w = Done a w ->
  (0 < a -> forall t, mval 1 w = Done t w ->
     call x_jump_if_true w =
       Done None (on_vm (with_jumped true) (on_vm (with_pos t) w)) /\
     fetch_addr (with_jumped true (with_pos t (vm w))) = int_add t 0) /\
  (a <= 0 -> call x_jump_if_true w = Done None w) /\
  (a = 0 -> forall t, mval 1 w = Done t w ->
     call x_jump_if_false w =
       Done None (on_vm (with_jumped true) (on_vm (with_pos t) w))) /\
  (a <> 0 -> call x_jump_if_false w = Done None w).
Proof.
  intros Ha. cbn [call]. unfold bind. rewrite Ha.
  split; [|split; [|split]].
  - intros Hpos t Ht. split.
    + destruct (Z.gtb_spec a 0); [|lia]. rewrite Ht. reflexivity.
    + unfold fetch_addr, next_pos, pending. cbn. rewrite andb_false_r. reflexivity.
  - intros Hle. destruct (Z.gtb_spec a 0); [lia|]. reflexivity.
  - intros -> t Ht. cbn. rewrite Ht. reflexivity.
  - intros Hne. destruct (Z.eqb_spec a 0); [lia|]. reflexivity.
Qed.

End Resolution.

Lemma mval_resolves_witness :
  mval 0 Examples.relbase_world = Done 77 Examples.relbase_world.
Proof.
  pose proof (mval_resolves Examples.relbase_world 0 5 ltac:(lia) eq_refl)
    as (_ & _ & _ & _ & _ & Hrel).
  rewrite (Hrel eq_refl eq_refl eq_refl). reflexivity.
Defined.

Lemma set_immediate_as_position_witness :
  set 2 11 Examples.imm_write_world = store 0 11 Examples.imm_write_world /\
  exists h', set 2 11 Examples.imm_write_world =
               Done tt (World (vm Examples.imm_write_world) h'
                          (host Examples.imm_write_world)) /\
             sl_get h' (mem (vm Examples.imm_write_world)) 0 = Some 11.
Proof.
  pose proof (set_immediate_as_position Examples.imm_write_world 2 0
                immediate 11 ltac:(lia) eq_refl eq_refl) as (Hs & _ & Hw).
  split; [apply Hs; right; reflexivity|].
  apply (Hw eq_refl 11101). reflexivity.
Defined.

Lemma jump_effects_witness :
  call x_jump_if_true Examples.neg_jump_world =
    Done None Examples.neg_jump_world.
Proof.
  pose proof (jump_effects Examples.neg_jump_world (-1) eq_refl)
    as (_ & Hneg & _).
  apply Hneg. lia.
Defined.

(** The whole program [1105,-1,5,104,1,99]: the jump over the output
    instruction is not taken, and 1 is output before the halt. *)
Example jump_if_true_negative_run :
  Examples.summary (Examples.run_list 10 [1105; -1; 5; 104; 1; 99] 6 []) =
  Some (inl None, Some [1105; -1; 5; 104; 1; 99], [1]).
Proof. reflexivity. Qed.

(** ** One pass of the loop *)

Section Pass.
Context {H E : Type}.
Implicit Types (w : world H E) (e : error E).

Lemma parse_modes_op k :
  forall (i0 i : instruction) q (r : option (error E)),
  parse_modes k i0 q = (i, r) -> ins_op i = ins_op i0.
Proof.
  induction k as [|k IH]; intros i0 i q r; cbn.
  - intros [= <- _]. reflexivity.
  - destruct (mode_of_digit _).
    + intros Hp. apply IH in Hp. exact Hp.
    + intros [= <- _]. reflexivity.
Qed.

Lemma parse_modes_err k :
  forall (i0 i : instruction) q e,
  parse_modes k i0 q = (i, Some e) -> e <> halt.
Proof.
  induction k as [|k IH]; intros i0 i q e; cbn.
  - discriminate.
  - destruct (mode_of_digit _).
    + apply IH.
    + intros [= _ <-]. discriminate.
Qed.

(** A decoded instruction carries an entry of the table. *)
Lemma parseInstruction_op word (i : instruction) :
  parseInstruction (E:=E) word = (i, None) ->
  ops !! Z.rem word 100 = Some (ins_op i).
Proof.
  unfold parseInstruction. cbv zeta.
  destruct (ops !! Z.rem word 100) as [o|]; [|discriminate].
  intros Hp. apply parse_modes_op in Hp. rewrite Hp. reflexivity.
Qed.

Lemma parseInstruction_err word (i : instruction) e :
  parseInstruction word = (i, Some e) -> e <> halt.
Proof.
  unfold parseInstruction. cbv zeta.
  destruct (ops !! Z.rem word 100) as [o|].
  - apply parse_modes_err.
  - intros [= _ <-]. discriminate.
Qed.

(** The three ways [stepInstruction] ends, by the word at the fetch
    address.  None touches the arrays or the host. *)
Lemma stepInstruction_cases w :
  exists w1,
    hp w1 = hp w /\ host w1 = host w /\ mem (vm w1) = mem (vm w) /\
    match sl_get (hp w) (mem (vm w)) (fetch_addr (vm w)) with
    | None => stepInstruction w = Panicked IndexOutOfRange w1
    | Some word =>
        match parseInstruction word with
        | (_, Some e) => stepInstruction w = Done (Some e) w1
        | (i, None) => stepInstruction w = Done None w1 /\ ins (vm w1) = i
        end
    end.
Proof.
  unfold stepInstruction, fetch_addr, next_pos, pending, bind, gets, modify, ret, val, load.
  destruct w as [v h s]. cbn.
  destruct (_ && _); cbn; unfold int_add; rewrite ?wrap_int_add_l, ?Z.add_0_r;
    (destruct (sl_get h (mem v) _) as [word|];
     [destruct (parseInstruction word) as [i [e|]]|]);
    eexists; (repeat split; [..|reflexivity]); reflexivity.
Qed.

Lemma stepInstruction_err w w1 e :
  stepInstruction w = Done (Some e) w1 -> e <> halt.
Proof.
  intros Hs. destruct (stepInstruction_cases w) as (w2 & _ & _ & _ & Hc).
  destruct (sl_get _ _ _) as [word|]; [|congruence].
  destruct (parseInstruction word) as [i [e'|]] eqn:Hp.
  - rewrite Hs in Hc. injection Hc as -> _.
    eapply parseInstruction_err. exact Hp.
  - destruct Hc as [Hc _]. congruence.
Qed.

(** After a successful [stepInstruction] the current instruction is an
    entry of the table. *)
Lemma stepInstruction_op w w1 :
  stepInstruction w = Done None w1 ->
  exists k, ops !! k = Some (ins_op (ins (vm w1))).
Proof.
  intros Hs. destruct (stepInstruction_Done _ _ Hs) as (word & _ & Hp & _).
  eexists. eapply parseInstruction_op. exact Hp.
Qed.

Lemma set_inv w w' i v :
  set i v w = Done tt w' ->
  vm w' = vm w /\ host w' = host w.
Proof.
  unfold set, bind, gets, pmode_at, store.
  destruct (val i w) as [j wj|] eqn:Hv; [|discriminate].
  apply val_inv in Hv as [-> _].
  destruct (if 0 <=? i then _ else _); [|discriminate].
  destruct (sl_set _ _ _ _); [|discriminate].
  intros [= <-]. split; reflexivity.
Qed.

(** Only the effect of the halt entry returns [halt], and it changes
    nothing. *)
Lemma call_halt (f : opfunc) w w' :
  call f w = Done (Some halt) w' -> f = x_halt /\ w' = w.
Proof.
  destruct f; cbn [call]; unfold bind, throw, ret, gets, modify, jump,
    call_input, call_output; try discriminate.
  - destruct (mval 0 w) as [a wa|]; [|discriminate].
    destruct (mval 1 wa) as [b wb|]; [|discriminate].
    destruct (set _ _ _); discriminate.
  - destruct (mval 0 w) as [a wa|]; [|discriminate].
    destruct (mval 1 wa) as [b wb|]; [|discriminate].
    destruct (set _ _ _); discriminate.
  - destruct (Input (vm w)) as [f|]; [|discriminate].
    destruct (f (host w)) as [[z [e|]] h']; cbn; [discriminate|].
    destruct (set _ _ _); discriminate.
  - destruct (Output (vm w)) as [f|]; [|discriminate].
    destruct (mval 0 w) as [a wa|]; [|discriminate].
    destruct (f a (host wa)) as [[e|] h']; discriminate.
  - destruct (mval 0 w) as [a wa|]; [|discriminate].
    destruct (a >? 0); [|discriminate].
    destruct (mval 1 wa) as [b wb|]; discriminate.
  - destruct (mval 0 w) as [a wa|]; [|discriminate].
    destruct (a =? 0); [|discriminate].
    destruct (mval 1 wa) as [b wb|]; discriminate.
  - destruct (mval 0 w) as [a wa|]; [|discriminate].
    destruct (mval 1 wa) as [b wb|]; [|discriminate].
    destruct (set _ _ _); discriminate.
  - destruct (mval 0 w) as [a wa|]; [|discriminate].
    destruct (mval 1 wa) as [b wb|]; [|discriminate].
    destruct (set _ _ _); discriminate.
  - destruct (mval 0 w) as [a wa|]; discriminate.
  - intros [= <-]. split; reflexivity.
Qed.

Lemma x_halt_code k o : ops !! k = Some o -> (x o = x_halt <-> code o = 99).
Proof.
  rewrite ops_lookup. intros Hk.
  decompose [and or] Hk; subst; cbn; split; (discriminate || reflexivity).
Qed.

End Pass.

(** ** The loop of [Run] *)

Section Loop.
Context {H E : Type}.
Implicit Types (w : world H E) (e : error E).

Lemma steps_VM_Run k w wk :
  steps k w wk -> forall n, VM_Run (k + n) w = VM_Run n wk.
Proof.
  induction 1 as [|k w w1 wk Hg Hi _ IH]; intros n; [reflexivity|].
  cbn [Nat.add VM_Run]. rewrite Hg, Hi. apply IH.
Qed.

(** A pass that halts or fails ends the loop at once. *)
Lemma halts_at_iteration w w' :
  halts_at w w' -> iteration w = Stop (Done None w').
Proof.
  intros (_ & Hs & Hc). unfold iteration. rewrite Hs.
  destruct (stepInstruction_op _ _ Hs) as (k & Hk).
  apply (x_halt_code _ _ Hk) in Hc. rewrite Hc. reflexivity.
Qed.

Lemma fails_at_iteration w e w' :
  fails_at w e w' -> iteration w = Stop (Done (Some e) w').
Proof.
  intros (_ & Hne & [Hs|(w1 & Hs & Hc)]); unfold iteration; rewrite Hs.
  - reflexivity.
  - rewrite Hc. destruct e; try reflexivity. congruence.
Qed.

Lemma iteration_Stop_Done w r w' :
  guard w = true ->
  iteration w = Stop (Done r w') ->
  (r = None /\ halts_at w w') \/ (exists e, r = Some e /\ fails_at w e w').
Proof.
  intros Hg. unfold iteration.
  destruct (stepInstruction w) as [[e|] w1|] eqn:Hs; [| |discriminate].
  - intros [= <- <-]. right. exists e. split; [reflexivity|].
    split; [exact Hg|]. split; [|left; exact Hs].
    eapply stepInstruction_err. exact Hs.
  - destruct (call _ w1) as [[e|] w2|] eqn:Hc; [|discriminate..].
    intros [= <- <-]. destruct (is_halt e) eqn:He.
    + left. split; [reflexivity|]. destruct e; try discriminate.
      apply call_halt in Hc as [Hx ->].
      split; [exact Hg|]. split; [exact Hs|].
      destruct (stepInstruction_op _ _ Hs) as (k & Hk).
      apply (x_halt_code _ _ Hk). exact Hx.
    + right. exists e. split; [reflexivity|].
      split; [exact Hg|]. split; [intros ->; discriminate|].
      right. exists w1. split; [exact Hs|exact Hc].
Qed.

(** C5.  [Run] returns, with error [r] and in world [w'], exactly when some
    number [k] of passes go through (each one complete: decoding and
    effect, without error) and the next pass either decodes opcode 99, in
    which case [r] is nil and [w'] is the world that pass decoded in; or
    fails with an error [e] other than the halt sentinel: a decoding error
    (unknown opcode, unknown parameter mode) or an error of the effect (no
    input hook, no output hook, the error of a hook), in which case [r] is
    [e] itself and [w'] the world the failing pass left, reached from the
    worlds of the [k] earlier passes. *)
Theorem VM_Run_returns (n : nat) w (r : option (error E)) w' :
  VM_Run n w = Some (Done r w') <->
  exists k wk,
    (k < n)%nat /\ steps k w wk /\
    ((r = None /\ halts_at wk w') \/
     (exists e, r = Some e /\ fails_at wk e w')).
Proof.
  split.
  - revert w. induction n as [|n IH]; intros w; cbn [VM_Run]; [discriminate|].
    destruct (guard w) eqn:Hg; [|discriminate].
    destruct (iteration w) as [w1|r0] eqn:Hi.
    + intros Hr. destruct (IH _ Hr) as (k & wk & Hk & Hst & Hend).
      exists (S k), wk. split; [lia|]. split; [|exact Hend].
      econstructor; eassumption.
    + intros [= ->]. exists 0%nat, w. split; [lia|]. split; [constructor|].
      apply iteration_Stop_Done; assumption.
  - intros (k & wk & Hk & Hst & Hend).
    replace n with (k + S (n - S k))%nat by lia.
    rewrite (steps_VM_Run _ _ _ Hst). cbn [VM_Run].
    destruct Hend as [[-> Hh]|(e & -> & Hf)].
    + rewrite (proj1 Hh), (halts_at_iteration _ _ Hh). reflexivity.
    + rewrite (proj1 Hf), (fails_at_iteration _ _ _ Hf). reflexivity.
Qed.

(** C6, as the code has it.  When the loop fetches the word 1399, the
    decoder reads opcode 99 and, halt taking no parameter, no mode digit:
    the leftover digits are ignored, the instruction is halt with an empty
    mode list and [Run] returns nil.  When it fetches a word whose remainder
    by 100 is no opcode, such as 50, [Run] returns the unknown-opcode error
    carrying that remainder and the word.  In both cases neither the arrays
    nor the host have changed. *)
Theorem VM_Run_fetches_1399_or_unknown (n : nat) w word :
  guard w = true ->
  sl_get (hp w) (mem (vm w)) (fetch_addr (vm w)) = Some word ->
  parseInstruction (E:=E) 1399 = (Instruction (Op "halt" 99 0 x_halt) [], None) /\
  parseInstruction (E:=E) 50 = (instruction_zero, Some (ErrUnknownOpcode 50 50)) /\
  (word = 1399 ->
   exists w', VM_Run (S n) w = Some (Done None w') /\
              hp w' = hp w /\ host w' = host w) /\
  (Z.rem word 100 ∉ opcodes ->
   exists w', VM_Run (S n) w =
                Some (Done (Some (ErrUnknownOpcode (Z.rem word 100) word)) w') /\
              hp w' = hp w /\ host w' = host w).
Proof.
  intros Hg Hw.
  split; [reflexivity|]. split; [reflexivity|].
  destruct (stepInstruction_cases w) as (w1 & Hh & Hs & _ & Hc).
  rewrite Hw in Hc. cbn [VM_Run]. rewrite Hg. unfold iteration. split.
  - intros ->. change (parseInstruction (E:=E) 1399)
      with (Instruction (Op "halt" 99 0 x_halt) [], @None (error E)) in Hc.
    destruct Hc as [Hc Hi]. rewrite Hc, Hi. cbn. eauto.
  - intros Hno. apply ops_None in Hno.
    unfold parseInstruction in Hc. cbv zeta in Hc. rewrite Hno in Hc.
    rewrite Hc. eauto.
Qed.

(** C8.  The loop condition is [pos <= len(mem)].  Once some passes have
    gone through, if the position exceeds the length the run ends in the
    explicit panic, and if the address of the next fetch is at or past the
    length it ends in the index-out-of-range panic of that fetch (the
    condition itself still holds when the position equals the length): the
    run never returns there.  Likewise a read of an operand word at or past
    the length panics. *)
Theorem VM_Run_past_end (k n : nat) w wk :
  steps k w wk ->
  len (mem (vm wk)) < pos (vm wk) \/ len (mem (vm wk)) <= fetch_addr (vm wk) ->
  (guard wk = true <-> pos (vm wk) <= len (mem (vm wk))) /\
  (len (mem (vm wk)) < pos (vm wk) ->
   VM_Run (k + S n) w =
     Some (Panicked (GotHere (pos (vm wk)) (len (mem (vm wk)))) wk)) /\
  (exists p w1, VM_Run (k + S n) w = Some (Panicked p w1) /\
                hp w1 = hp wk /\ host w1 = host wk) /\
  (forall i, len (mem (vm wk)) <= int_add (pos (vm wk)) i ->
     val i wk = Panicked IndexOutOfRange wk).
Proof.
  intros Hst Hend.
  assert (Hval : forall i, len (mem (vm wk)) <= int_add (pos (vm wk)) i ->
            val i wk = Panicked IndexOutOfRange wk).
  { intros i Hi. unfold val, bind, gets, load.
    rewrite sl_get_past_end by exact Hi. reflexivity. }
  rewrite (steps_VM_Run _ _ _ Hst). cbn [VM_Run].
  unfold guard. destruct (Z.leb_spec (pos (vm wk)) (len (mem (vm wk)))) as [Hle|Hgt].
  - split; [tauto|]. split; [lia|]. split; [|exact Hval].
    destruct Hend as [Hgt|Hf]; [lia|].
    destruct (stepInstruction_cases wk) as (w1 & Hh & Hs & _ & Hc).
    destruct (sl_get _ _ _) as [word|] eqn:Hw.
    { apply sl_get_bounds in Hw. lia. }
    unfold iteration. rewrite Hc. eauto.
  - split; [split; [discriminate|lia]|]. split; [reflexivity|].
    split; [eauto|exact Hval].
Qed.

End Loop.

(** The word 1399 is decoded, as halt: decoding it is no unknown-opcode
    error. *)
Lemma decode_1399_not_unknown :
  ~ exists i c w,
      parseInstruction (E:=string) 1399 = (i, Some (ErrUnknownOpcode c w)).
Proof. intros (i & c & w & Hp). discriminate Hp. Qed.

Lemma VM_Run_fetches_1399_or_unknown_witness :
  (exists w', VM_Run 1 (Examples.boot [1399] [0] []) = Some (Done None w') /\
              hp w' = hp (Examples.boot [1399] [0] []) /\
              host w' = host (Examples.boot [1399] [0] [])) /\
  (exists w', VM_Run 1 (Examples.boot [50] [0] []) =
                Some (Done (Some (ErrUnknownOpcode 50 50)) w') /\
              hp w' = hp (Examples.boot [50] [0] []) /\
              host w' = host (Examples.boot [50] [0] [])).
Proof.
  split.
  - apply (VM_Run_fetches_1399_or_unknown 0 (Examples.boot [1399] [0] []) 1399
             eq_refl eq_refl). reflexivity.
  - apply (VM_Run_fetches_1399_or_unknown 0 (Examples.boot [50] [0] []) 50
             eq_refl eq_refl).
    change (Z.rem 50 100) with 50.
    unfold opcodes. rewrite !elem_of_cons, elem_of_nil. lia.
Defined.

(** [1101,1,1,0] in four cells: after the addition the next fetch is at
    index 4, the length of the memory. *)
Lemma VM_Run_past_end_witness :
  exists p w1,
    VM_Run 2 (Examples.boot [1101; 1; 1; 0] (replicate 4 0) []) =
      Some (Panicked p w1) /\
    hp w1 = [[1101; 1; 1; 0]; [2; 1; 1; 0]].
Proof.
  assert (Hst : steps 1 (Examples.boot [1101; 1; 1; 0] (replicate 4 0) [])
                  (Examples.advance 1
                     (Examples.boot [1101; 1; 1; 0] (replicate 4 0) []))).
  { econstructor; [reflexivity|reflexivity|constructor]. }
  destruct (VM_Run_past_end 1 0 _ _ Hst) as (_ & _ & (p & w1 & Hr & Hh & _) & _).
  { right. apply Z.leb_le. vm_compute. reflexivity. }
  exists p, w1. split; [exact Hr|]. rewrite Hh. reflexivity.
Defined.

(** ** The two program-counter disciplines *)

Section Disciplines.
Context {H E : Type}.
Implicit Types (w : world H E) (v : VM H E) (e : error E).

Lemma with_pos_same v : with_pos (pos v) v = v.
Proof. destruct v. reflexivity. Qed.

Lemma stepInstruction_eq w :
  stepInstruction w =
  match sl_get (hp w) (mem (vm w)) (fetch_addr (vm w)) with
  | None => Panicked IndexOutOfRange (before_decode w)
  | Some word =>
      match parseInstruction word with
      | (_, Some e) => Done (Some e) (before_decode w)
      | (i, None) => Done None (after_decode i w)
      end
  end.
Proof.
  unfold stepInstruction, before_decode, after_decode, fetch_addr, next_pos,
    pending, bind, gets, modify, ret, val, load, on_vm.
  destruct w as [v h s]. destruct v. cbn.
  destruct (_ && _); cbn;
    (destruct (sl_get h _ _) as [word|]; [|reflexivity]);
    (destruct (parseInstruction word) as [i [e|]]; reflexivity).
Qed.

Lemma naive_iteration_eq w :
  naive_iteration (to_naive w) =
  match sl_get (hp w) (mem (vm w)) (fetch_addr (vm w)) with
  | None => Stop (Panicked IndexOutOfRange (to_naive w))
  | Some word =>
      match parseInstruction word with
      | (_, Some e) => Stop (Done (Some e) (to_naive w))
      | (i, None) =>
          match call (x (ins_op i)) (after_decode i w) with
          | Panicked q w2 => Stop (Panicked q w2)
          | Done (Some err) w2 =>
              Stop (Done (if is_halt err then None else Some err) w2)
          | Done None w2 =>
              Continue
                (if jumped (vm w2) then w2
                 else on_vm (with_pos (int_add (next_pos (vm w))
                                         (1 + pc (ins_op i)))) w2)
          end
      end
  end.
Proof.
  unfold naive_iteration, to_naive, after_decode, fetch_addr,
    bind, gets, val, load, on_vm.
  destruct w as [v h s]. destruct v. cbn.
  destruct (sl_get h _ _) as [word|]; [|reflexivity].
  destruct (parseInstruction word) as [i [e|]]; reflexivity.
Qed.

Ltac use_mval :=
  match goal with
  | |- context [match mval ?i ?w with _ => _ end] =>
      let Hm := fresh "Hm" in
      let wa := fresh "wa" in
      destruct (mval i w) as [? wa|] eqn:Hm;
      [apply mval_inv in Hm; subst wa|discriminate]
  end.

Ltac use_set :=
  match goal with
  | |- context [match set ?i ?v ?w with _ => _ end] =>
      let Hs := fresh "Hs" in
      let ws := fresh "ws" in
      destruct (set i v w) as [[] ws|] eqn:Hs;
      [apply set_inv in Hs as [? ?]|discriminate]
  end.

Ltac same_vm :=
  match goal with
  | Hv : vm ?a = vm ?b |- _ => rewrite Hv
  end.

(** What an effect that completes leaves of the VM: the instruction and
    the slices are kept, and the position only changes by a jump. *)
Lemma call_frame (f : opfunc) w w' (r : option (error E)) :
  call f w = Done r w' ->
  ins (vm w') = ins (vm w) /\ mem (vm w') = mem (vm w) /\
  (jumped (vm w') = true \/
   (jumped (vm w') = jumped (vm w) /\ pos (vm w') = pos (vm w))).
Proof.
  destruct f; cbn [call]; unfold bind, throw, ret, gets, modify, jump,
    call_input, call_output; try discriminate.
  - use_mval. use_mval. use_set. intros [= <- <-]. same_vm. auto.
  - use_mval. use_mval. use_set. intros [= <- <-]. same_vm. auto.
  - destruct (Input (vm w)) as [f|]; [|intros [= <- <-]; auto].
    destruct (f (host w)) as [[z [e|]] h']; cbn; [intros [= <- <-]; auto|].
    use_set. intros [= <- <-]. same_vm. auto.
  - destruct (Output (vm w)) as [f|]; [|intros [= <- <-]; auto].
    use_mval. destruct (f _ (host w)) as [o h']. intros [= <- <-]. auto.
  - use_mval. destruct (_ >? 0); [|intros [= <- <-]; auto].
    use_mval. intros [= <- <-]. auto.
  - use_mval. destruct (_ =? 0); [|intros [= <- <-]; auto].
    use_mval. intros [= <- <-]. auto.
  - use_mval. use_mval. use_set. intros [= <- <-]. same_vm. auto.
  - use_mval. use_mval. use_set. intros [= <- <-]. same_vm. auto.
  - use_mval. intros [= <- <-]. auto.
  - intros [= <- <-]. auto.
Qed.

Lemma iteration_eq w :
  iteration w =
  match sl_get (hp w) (mem (vm w)) (fetch_addr (vm w)) with
  | None => Stop (Panicked IndexOutOfRange (before_decode w))
  | Some word =>
      match parseInstruction word with
      | (_, Some e) => Stop (Done (Some e) (before_decode w))
      | (i, None) =>
          match call (x (ins_op i)) (after_decode i w) with
          | Panicked q w2 => Stop (Panicked q w2)
          | Done (Some err) w2 =>
              Stop (Done (if is_halt err then None else Some err) w2)
          | Done None w2 => Continue w2
          end
      end
  end.
Proof.
  unfold iteration. rewrite stepInstruction_eq.
  destruct (sl_get _ _ _) as [word|]; [|reflexivity].
  destruct (parseInstruction word) as [i [e|]]; reflexivity.
Qed.

Lemma val_to_naive w :
  val 0 (to_naive w) =
  match sl_get (hp w) (mem (vm w)) (fetch_addr (vm w)) with
  | Some word => Done word (to_naive w)
  | None => Panicked IndexOutOfRange (to_naive w)
  end.
Proof. reflexivity. Qed.

Lemma to_naive_not_pending w : pending (vm w) = false -> to_naive w = w.
Proof.
  intros Hp. unfold to_naive, on_vm, next_pos. rewrite Hp, with_pos_same.
  destruct w. reflexivity.
Qed.

(** After an instruction that did not jump, the position is one past an
    index of the memory, hence at most its length; and the position the
    naive semantics moves to is the one the engine will fetch from. *)
Lemma naive_next w word (i : instruction) w2 :
  sl_get (hp w) (mem (vm w)) (fetch_addr (vm w)) = Some word ->
  parseInstruction (E:=E) word = (i, None) ->
  call (x (ins_op i)) (after_decode i w) = Done None w2 ->
  (if jumped (vm w2) then w2
   else on_vm (with_pos (int_add (next_pos (vm w)) (1 + pc (ins_op i)))) w2)
  = to_naive w2 /\
  (pending (vm w2) = true -> pos (vm w2) <= len (mem (vm w2))).
Proof.
  intros Hw Hp Hc. apply call_frame in Hc as (Hi & Hm & Hj).
  cbn in Hi, Hm, Hj.
  destruct (jumped (vm w2)) eqn:Hjw.
  - assert (Hpend : pending (vm w2) = false).
    { unfold pending. rewrite Hjw. apply andb_false_r. }
    rewrite (to_naive_not_pending _ Hpend). split; [reflexivity|congruence].
  - destruct Hj as [Hj|[_ Hpos]]; [discriminate|].
    apply parseInstruction_op in Hp.
    assert (Hcode : 0 < code (ins_op i)).
    { rewrite (ops_code _ _ Hp). apply opcodes_pos, ops_is_Some. eauto. }
    assert (Hpend : pending (vm w2) = true).
    { unfold pending. rewrite Hjw, Hi.
      destruct (Z.gtb_spec (code (ins_op i)) 0); [reflexivity|lia]. }
    split.
    + unfold to_naive, on_vm, next_pos. rewrite Hpend, Hpos, Hi.
      rewrite int_add_assoc_1. reflexivity.
    + intros _. rewrite Hpos, Hm.
      apply sl_get_bounds in Hw. unfold fetch_addr, int_add in *.
      rewrite Z.add_0_r in Hw. rewrite <- wrap_int_add_l.
      pose proof (wrap_int_le (wrap_int (next_pos (vm w)) + 1)). lia.
Qed.

(** The engine in [w] and the naive semantics in [to_naive w] go through
    the same instructions and end alike, provided that a pending advance
    finds the position within the memory or at its end. *)
Lemma disciplines_agree (n : nat) :
  forall w,
  (pending (vm w) = true -> pos (vm w) <= len (mem (vm w))) ->
  option_map observe (VM_Run n w) =
    option_map observe (naive_Run n (to_naive w)) /\
  VM_trace n w = naive_trace n (to_naive w).
Proof.
  induction n as [|n IH]; intros w Hinv; [split; reflexivity|].
  cbn [VM_Run naive_Run VM_trace naive_trace].
  rewrite val_to_naive, naive_iteration_eq, iteration_eq, stepInstruction_eq.
  change (int_add (pos (vm (to_naive w))) 0) with (fetch_addr (vm w)).
  assert (Hg : guard (to_naive w) = guard w \/
               (guard w = true /\ guard (to_naive w) = false /\
                sl_get (hp w) (mem (vm w)) (fetch_addr (vm w)) = None)).
  { destruct (pending (vm w)) eqn:Hpend.
    - assert (Hgw : guard w = true) by (apply Z.leb_le; auto).
      destruct (guard (to_naive w)) eqn:Hgn; [left; congruence|right].
      split; [exact Hgw|]. split; [reflexivity|].
      apply sl_get_past_end. unfold guard in Hgn. apply Z.leb_gt in Hgn.
      cbn in Hgn. unfold fetch_addr, next_pos, int_add in *.
      rewrite Hpend in *. rewrite Z.add_0_r, wrap_int_idem. lia.
    - left. rewrite (to_naive_not_pending _ Hpend). reflexivity. }
  destruct Hg as [->|(-> & -> & ->)]; [|split; reflexivity].
  destruct (guard w); [|split; reflexivity].
  destruct (sl_get (hp w) (mem (vm w)) (fetch_addr (vm w))) as [word|] eqn:Hw;
    [|split; reflexivity].
  destruct (parseInstruction word) as [i [e|]] eqn:Hp; [split; reflexivity|].
  destruct (call (x (ins_op i)) (after_decode i w)) as [[err|] w2|] eqn:Hc;
    [split; reflexivity| |split; reflexivity].
  destruct (naive_next _ _ _ _ Hw Hp Hc) as [-> Hinv2].
  destruct (IH w2 Hinv2) as [-> ->]. split; reflexivity.
Qed.

(** C4.  On every program, memory buffer and pair of hooks, and for every
    bound on the number of passes, the engine started by [NewVM] and the
    naive semantics started in the same world execute the same sequence of
    instructions, at the same indices, and end alike: both still running,
    or both returning the same error or nil, or both panicking, with the
    same arrays, host and relative base.  (Which panic it is may differ:
    where the naive position moves past the end of the memory, the naive
    semantics stops at the loop condition and the engine at the fetch.) *)
Theorem pc_discipline_equivalent (n : nat) (program' mem' : slice)
    (input : option (H -> (Z * option E) * H))
    (output : option (Z -> H -> option E * H)) (h : heap) (hst : H) :
  let w0 := World (fst (NewVM program' mem' input output h))
              (snd (NewVM program' mem' input output h)) hst in
  option_map observe (VM_Run n w0) = option_map observe (naive_Run n w0) /\
  VM_trace n w0 = naive_trace n w0.
Proof.
  intros w0.
  assert (Hpend : pending (vm w0) = false) by reflexivity.
  rewrite <- (to_naive_not_pending _ Hpend) at 2 4.
  apply disciplines_agree. rewrite Hpend. discriminate.
Qed.

End Disciplines.

(** ** Copying between slices *)

Lemma sl_get_in h s j :
  0 <= j < len s ->
  sl_get h s j =
  match h !! s_arr s with
  | Some a => a !! (s_off s + Z.to_nat j)%nat
  | None => None
  end.
Proof.
  intros Hj. unfold sl_get, in_bounds.
  destruct (Z.leb_spec 0 j); [|lia]. destruct (Z.ltb_spec j (len s)); [|lia].
  reflexivity.
Qed.

Lemma sl_get_out h s j : ~ (0 <= j < len s) -> sl_get h s j = None.
Proof.
  intros Hj. destruct (sl_get h s j) eqn:Hg; [|reflexivity].
  apply sl_get_bounds in Hg. contradiction.
Qed.

(** Two slices of the same length with the same cells read the same. *)
Lemma sl_read_ext h s h' s' :
  slice_ok h s -> slice_ok h' s' -> s_len s = s_len s' ->
  (forall j, 0 <= j < len s -> sl_get h s j = sl_get h' s' j) ->
  sl_read h s = sl_read h' s'.
Proof.
  intros Hs Hs' Hl Hj. apply list_eq. intros k.
  destruct (decide (k < s_len s)%nat) as [Hk|Hk].
  - rewrite !sl_read_lookup by (assumption || lia).
    apply Hj. unfold len. lia.
  - rewrite !lookup_ge_None_2; [reflexivity|..];
      rewrite length_sl_read by assumption; lia.
Qed.

(** [copy(dst, src)]: the first [min(len(dst), len(src))] cells of [dst]
    receive those [src] had, every other cell of every array is kept. *)
Lemma copy_spec h dst src :
  slice_ok h dst -> slice_ok h src ->
  length (copy h dst src) = length h /\
  (forall l : loc, l <> s_arr dst -> copy h dst src !! l = h !! l) /\
  (forall (l : loc) a, h !! l = Some a ->
     exists a', copy h dst src !! l = Some a' /\ length a' = length a) /\
  (forall j, 0 <= j < Z.min (len dst) (len src) ->
     sl_get (copy h dst src) dst j = sl_get h src j) /\
  (forall j, Z.min (len dst) (len src) <= j ->
     sl_get (copy h dst src) dst j = sl_get h dst j).
Proof.
  intros (a & Ha & Hla) Hsrc. unfold copy. rewrite Ha.
  set (n := Nat.min (s_len dst) (s_len src)).
  set (xs := take n (sl_read h src)).
  assert (Hxs : length xs = n).
  { unfold xs. rewrite length_take, length_sl_read by assumption. lia. }
  assert (Harr : (s_arr dst < length h)%nat) by (eapply lookup_lt_Some; eauto).
  split; [apply length_insert|].
  split; [intros l Hl; apply list_lookup_insert_ne; congruence|].
  split.
  { intros l a0 Hl. destruct (decide (l = s_arr dst)) as [->|Hne].
    - rewrite list_lookup_insert_eq by assumption.
      eexists. split; [reflexivity|]. rewrite length_inserts. congruence.
    - rewrite list_lookup_insert_ne by congruence. eauto. }
  unfold len in *. split.
  - intros j Hj. rewrite sl_get_in by (unfold len; lia).
    rewrite list_lookup_insert_eq by assumption.
    rewrite list_lookup_inserts by lia.
    replace (s_off dst + Z.to_nat j - s_off dst)%nat with (Z.to_nat j) by lia.
    unfold xs. rewrite lookup_take_lt by lia.
    rewrite sl_read_lookup by (assumption || lia).
    rewrite Z2Nat.id by lia. reflexivity.
  - intros j Hj.
    destruct (decide (0 <= j < Z.of_nat (s_len dst))) as [Hin|Hout].
    + rewrite !sl_get_in by (unfold len; lia).
      rewrite list_lookup_insert_eq, Ha by assumption.
      apply list_lookup_inserts_ge. lia.
    + rewrite !sl_get_out by (unfold len; lia). reflexivity.
Qed.

Lemma copy_slice_ok h dst src s :
  slice_ok h dst -> slice_ok h src -> slice_ok h s ->
  slice_ok (copy h dst src) s.
Proof.
  intros Hd Hsrc (a & Ha & Hl).
  destruct (copy_spec h dst src Hd Hsrc) as (_ & _ & Hlen & _).
  destruct (Hlen _ _ Ha) as (a' & Ha' & Hl').
  exists a'. split; [exact Ha'|lia].
Qed.

(** ** Construction and copy of a VM *)

Section Construction.
Context {H E : Type}.
Implicit Types (w : world H E) (v : VM H E).

(** C10.  [NewVM] has no error result and returns a VM for every input:
    the VM holds the caller's two slices themselves, and of the program
    only the first [min(len(mem), len(program))] words have been copied
    into the buffer.  A buffer shorter than the program thus holds a
    truncated program, and the cells of the buffer from index
    [len(program)] on, like every other array, hold what they held. *)
Theorem NewVM_copies_prefix (program' mem' : slice)
    (input : option (H -> (Z * option E) * H))
    (output : option (Z -> H -> option E * H)) (h : heap) :
  slice_ok h program' -> slice_ok h mem' ->
  exists v h',
    NewVM program' mem' input output h = (v, h') /\
    program v = program' /\ mem v = mem' /\
    (forall j, 0 <= j < Z.min (len mem') (len program') ->
       sl_get h' mem' j = sl_get h program' j) /\
    (forall j, len program' <= j -> sl_get h' mem' j = sl_get h mem' j) /\
    (len mem' <= len program' ->
       sl_read h' mem' = take (s_len mem') (sl_read h program')) /\
    (forall l : loc, l <> s_arr mem' -> h' !! l = h !! l).
Proof.
  intros Hp Hm. eexists _, _. split; [reflexivity|].
  destruct (copy_spec h mem' program' Hm Hp) as (_ & Hother & _ & Hcopied & Hkept).
  split; [reflexivity|]. split; [reflexivity|].
  split; [exact Hcopied|]. split; [intros j Hj; apply Hkept; lia|].
  split; [|exact Hother].
  intros Hshort. apply list_eq. intros k.
  pose proof (copy_slice_ok h mem' program' mem' Hm Hp Hm) as Hm'.
  unfold len in *.
  destruct (decide (k < s_len mem')%nat) as [Hk|Hk].
  - rewrite lookup_take_lt by lia.
    rewrite !sl_read_lookup by (assumption || lia).
    apply Hcopied. unfold len. lia.
  - rewrite !lookup_ge_None_2; [reflexivity|..].
    + rewrite length_take. lia.
    + rewrite length_sl_read by assumption. lia.
Qed.

Lemma make_spec (h : heap) (n : nat) :
  slice_ok (fst (make h n)) (snd (make h n)) /\
  s_arr (snd (make h n)) = length h /\
  s_len (snd (make h n)) = n /\
  sl_read (fst (make h n)) (snd (make h n)) = replicate n 0 /\
  (forall (l : loc) a, h !! l = Some a -> fst (make h n) !! l = Some a).
Proof.
  unfold make, slice_ok, sl_read. cbn.
  rewrite lookup_app_r, Nat.sub_diag by lia. cbn.
  rewrite drop_0, take_ge by (rewrite length_replicate; lia).
  split; [eexists; split; [reflexivity|rewrite length_replicate; lia]|].
  repeat split. intros l a Hl. apply lookup_app_l_Some. exact Hl.
Qed.

Lemma slice_ok_mono (h h' : heap) s :
  (forall (l : loc) a, h !! l = Some a ->
     exists a', h' !! l = Some a' /\ length a' = length a) ->
  slice_ok h s -> slice_ok h' s.
Proof.
  intros Hmono (a & Ha & Hl). destruct (Hmono _ _ Ha) as (a' & Ha' & Hl').
  exists a'. split; [exact Ha'|lia].
Qed.

Lemma store_inv w j val' w' :
  store j val' w = Done tt w' ->
  vm w' = vm w /\ host w' = host w /\
  sl_set (hp w) (mem (vm w)) j val' = Some (hp w').
Proof.
  unfold store. destruct (sl_set _ _ _ _) as [h'|]; [|discriminate].
  intros [= <-]. repeat split.
Qed.

(** A write through the memory of one VM is not seen through a slice over
    another array. *)
Lemma store_other_array w j val' w' s :
  store j val' w = Done tt w' -> s_arr s <> s_arr (mem (vm w)) ->
  sl_read (hp w') s = sl_read (hp w) s.
Proof.
  intros Hst Hne. apply store_inv in Hst as (_ & _ & Hs).
  apply sl_read_other_array. eapply sl_set_other_array; eassumption.
Qed.

(** C7.  [Copy] returns a new VM and leaves the receiver, the host and every
    existing array as they were.  The new VM has the position, current
    instruction, jumped flag and relative base of the receiver and the very
    same two hooks; its program and memory read element by element as the
    receiver's do, but lie in two fresh arrays: a write to the memory of the
    copy changes neither buffer of the receiver, and a write to the memory
    of the receiver changes neither buffer of the copy. *)
Theorem Copy_independent w :
  slice_ok (hp w) (program (vm w)) -> slice_ok (hp w) (mem (vm w)) ->
  exists v' w',
    Copy w = Done v' w' /\
    vm w' = vm w /\ host w' = host w /\
    (forall (l : loc) a, hp w !! l = Some a -> hp w' !! l = Some a) /\
    pos v' = pos (vm w) /\ ins v' = ins (vm w) /\
    jumped v' = jumped (vm w) /\ relbase v' = relbase (vm w) /\
    Input v' = Input (vm w) /\ Output v' = Output (vm w) /\
    sl_read (hp w') (program v') = sl_read (hp w) (program (vm w)) /\
    sl_read (hp w') (mem v') = sl_read (hp w) (mem (vm w)) /\
    hp w !! s_arr (program v') = None /\ hp w !! s_arr (mem v') = None /\
    s_arr (program v') <> s_arr (mem v') /\
    (forall j val' w'',
       store j val' (World v' (hp w') (host w')) = Done tt w'' ->
       sl_read (hp w'') (mem (vm w)) = sl_read (hp w') (mem (vm w)) /\
       sl_read (hp w'') (program (vm w)) = sl_read (hp w') (program (vm w))) /\
    (forall j val' w'',
       store j val' w' = Done tt w'' ->
       sl_read (hp w'') (mem v') = sl_read (hp w') (mem v') /\
       sl_read (hp w'') (program v') = sl_read (hp w') (program v')).
Proof.
  intros Hprog Hmem. destruct w as [v h hst]. cbn [vm hp host] in *.
  unfold Copy. cbn [vm hp host].
  destruct (make_spec h (s_len (program v))) as (Hpok & Hparr & Hplen & _ & Hpext).
  destruct (make h (s_len (program v))) as [h1 p] eqn:Hmk1. cbn [fst snd] in *.
  destruct (make_spec h1 (s_len (mem v))) as (Hmok & Hmarr & Hmlen & _ & Hmext).
  destruct (make h1 (s_len (mem v))) as [h2 m] eqn:Hmk2. cbn [fst snd] in *.
  assert (Hlen1 : length h1 = S (length h)).
  { injection Hmk1 as <- _. rewrite length_app. cbn. lia. }
  assert (Hext : forall (l : loc) a, h !! l = Some a -> h2 !! l = Some a) by auto.
  assert (Hmono : forall (l : loc) a, h !! l = Some a ->
            exists a', h2 !! l = Some a' /\ length a' = length a) by eauto.
  assert (Hmono1 : forall (l : loc) a, h1 !! l = Some a ->
            exists a', h2 !! l = Some a' /\ length a' = length a) by eauto.
  pose proof (slice_ok_mono _ _ _ Hmono Hprog) as Hprog2.
  pose proof (slice_ok_mono _ _ _ Hmono Hmem) as Hmem2.
  pose proof (slice_ok_mono _ _ _ Hmono1 Hpok) as Hpok2.
  (* the old slices lie in old arrays *)
  assert (Hprog_lt : (s_arr (program v) < length h)%nat).
  { destruct Hprog as (a & Ha & _). eapply lookup_lt_Some; eauto. }
  assert (Hmem_lt : (s_arr (mem v) < length h)%nat).
  { destruct Hmem as (a & Ha & _). eapply lookup_lt_Some; eauto. }
  (* first copy *)
  destruct (copy_spec h2 p (program v) Hpok2 Hprog2)
    as (_ & Hother3 & Hmono3 & Hcopied3 & _).
  set (h3 := copy h2 p (program v)) in *.
  pose proof (slice_ok_mono _ _ _ Hmono3 Hmok) as Hmok3.
  pose proof (slice_ok_mono _ _ _ Hmono3 Hmem2) as Hmem3.
  pose proof (slice_ok_mono _ _ _ Hmono3 Hpok2) as Hpok3.
  (* second copy *)
  destruct (copy_spec h3 m (mem v) Hmok3 Hmem3)
    as (_ & Hother4 & Hmono4 & Hcopied4 & _).
  set (h4 := copy h3 m (mem v)) in *.
  pose proof (slice_ok_mono _ _ _ Hmono4 Hmok3) as Hmok4.
  pose proof (slice_ok_mono _ _ _ Hmono4 Hpok3) as Hpok4.
  assert (Hold : forall l : loc, (l < length h)%nat -> h4 !! l = h2 !! l).
  { intros l Hl. rewrite Hother4, Hother3 by lia. reflexivity. }
  eexists _, _. split; [reflexivity|]. cbn [vm hp host program mem pos ins
    jumped relbase Input Output].
  split; [reflexivity|]. split; [reflexivity|].
  split.
  { intros l a Hl. rewrite Hold by (eapply lookup_lt_Some; eauto). auto. }
  do 6 (split; [reflexivity|]).
  split.
  { apply sl_read_ext; [assumption..|lia|].
    intros j Hj. unfold len in Hj.
    rewrite (sl_get_other_array h3 h4) by (apply Hother4; lia).
    rewrite Hcopied3 by (unfold len; lia).
    apply sl_get_other_array. destruct Hprog as (a & Ha & _).
    rewrite Ha. auto. }
  split.
  { apply sl_read_ext; [assumption..|lia|].
    intros j Hj. unfold len in Hj.
    rewrite Hcopied4 by (unfold len; lia).
    apply sl_get_other_array. rewrite Hother3 by lia.
    destruct Hmem as (a & Ha & _). rewrite Ha. auto. }
  split; [apply lookup_ge_None_2; lia|].
  split; [apply lookup_ge_None_2; lia|].
  split; [lia|].
  split.
  - intros j val' w'' Hst.
    split; refine (store_other_array _ _ _ _ _ Hst _); cbn; lia.
  - intros j val' w'' Hst.
    split; refine (store_other_array _ _ _ _ _ Hst _); cbn; lia.
Qed.

End Construction.

Lemma NewVM_copies_prefix_witness :
  exists v h',
    NewVM (H:=Examples.io) (E:=string) (Examples.prog_slice [1; 2; 3; 4; 5])
      (Examples.mem_slice 3) None None Examples.short_buffer = (v, h') /\
    sl_read h' (Examples.mem_slice 3) = [1; 2; 3].
Proof.
  destruct (NewVM_copies_prefix (H:=Examples.io) (E:=string)
              (Examples.prog_slice [1; 2; 3; 4; 5]) (Examples.mem_slice 3)
              None None Examples.short_buffer)
    as (v & h' & Hnew & _ & _ & _ & _ & Htrunc & _).
  - exists [1; 2; 3; 4; 5]. split; [reflexivity|cbn; lia].
  - exists [7; 8; 9]. split; [reflexivity|cbn; lia].
  - exists v, h'. split; [exact Hnew|]. rewrite Htrunc by (apply Z.leb_le; reflexivity). reflexivity.
Defined.

(** A buffer longer than the program keeps its cells from the program's
    length on. *)
Example NewVM_keeps_tail :
  sl_read (snd (NewVM (H:=Examples.io) (E:=string)
                  (Examples.prog_slice [1; 2]) (Examples.mem_slice 4)
                  None None Examples.long_buffer))
    (Examples.mem_slice 4) = [1; 2; 9; 10].
Proof. reflexivity. Qed.

Lemma Copy_independent_witness :
  exists v' w',
    Copy Examples.add_world = Done v' w' /\
    sl_read (hp w') (mem v') = [1; 0; 0; 0; 99] /\
    Output v' = Some Examples.output_hook /\
    s_arr (mem v') <> s_arr (mem (vm Examples.add_world)).
Proof.
  destruct (Copy_independent Examples.add_world)
    as (v' & w' & Hc & _ & _ & _ & _ & _ & _ & _ & _ & Hout & _ & Hm & _ & Hfresh & _).
  - exists [1; 0; 0; 0; 99]. split; [reflexivity|cbn; lia].
  - exists [1; 0; 0; 0; 99]. split; [reflexivity|cbn; lia].
  - exists v', w'. split; [exact Hc|]. split; [rewrite Hm; reflexivity|].
    split; [rewrite Hout; reflexivity|].
    intros Heq. rewrite Heq in Hfresh. discriminate Hfresh.
Defined.

(** Running the copy of [1,0,0,0,99] for one instruction writes 2 into
    cell 0 of the copy and leaves the memory of the original as it was. *)
Example Copy_then_run :
  match Copy Examples.add_world with
  | Done v' w' =>
      let w1 := Examples.advance 1 (World v' (hp w') (host w')) in
      sl_read (hp w1) (mem v') = [2; 0; 0; 0; 99] /\
      sl_read (hp w1) (mem (vm Examples.add_world)) = [1; 0; 0; 0; 99]
  | Panicked _ _ => False
  end.
Proof. split; reflexivity. Qed.

(** The instructions [1,0,0,0,99] goes through, in either discipline. *)
Example add_trace :
  VM_trace 5 Examples.add_world =
    [(0, Instruction (Op "add" 1 3 x_add) [position; position; position]);
     (4, Instruction (Op "halt" 99 0 x_halt) [])] /\
  naive_trace 5 Examples.add_world = VM_trace 5 Examples.add_world.
Proof. split; reflexivity. Qed.

(** The runs the specification lists. *)
Example run_add :
  Examples.summary (Examples.run_list 10 [1; 0; 0; 0; 99] 5 []) =
  Some (inl None, Some [2; 0; 0; 0; 99], []).
Proof. reflexivity. Qed.

Example run_mult :
  Examples.summary (Examples.run_list 10 [2; 3; 0; 3; 99] 5 []) =
  Some (inl None, Some [2; 3; 0; 6; 99], []).
Proof. reflexivity. Qed.

Example run_echo :
  Examples.summary (Examples.run_list 10 [3; 0; 4; 0; 99] 5 [42]) =
  Some (inl None, Some [42; 0; 4; 0; 99], [42]).
Proof. reflexivity. Qed.

Example run_no_input_hook :
  match Run (H:=Examples.io) (E:=string) 10 (Examples.prog_slice [3; 0; 99])
          (Examples.mem_slice 3) None None
          (Examples.heap_of [3; 0; 99] 3) (Examples.IO [] []) with
  | Some (Done e w) => e = Some ErrNoInput /\ hp w !! 1%nat = Some [3; 0; 99]
  | _ => False
  end.
Proof. split; reflexivity. Qed.

(** * Further properties of the engine *)

(** ** What every method preserves *)

Section Preservation.
Context {H E : Type}.
Implicit Types (w : world H E).

(** A reflexive and transitive relation between worlds. *)
Variable P : world H E -> world H E -> Prop.
Hypothesis P_refl : forall w, P w w.
Hypothesis P_trans : forall w1 w2 w3, P w1 w2 -> P w2 w3 -> P w1 w3.

Local Abbreviation preserves := (preserves P).
Local Abbreviation store_ok := (store_ok P).
Local Abbreviation pos_ok := (pos_ok P).
Local Abbreviation jumped_ok := (jumped_ok P).
Local Abbreviation ins_ok := (ins_ok P).
Local Abbreviation relbase_ok := (relbase_ok P).
Local Abbreviation hooks_ok := (hooks_ok P).

Lemma preserves_ret {A} (a : A) : preserves (ret a).
Proof. intros w. apply P_refl. Qed.

Lemma preserves_throw {A} (p : panic) : preserves (throw (A:=A) p).
Proof. intros w. apply P_refl. Qed.

Lemma preserves_gets {A} (f : VM H E -> A) : preserves (gets f).
Proof. intros w. apply P_refl. Qed.

Lemma preserves_bind {A B} (m : M H E A) (k : A -> M H E B) :
  preserves m -> (forall a, preserves (k a)) -> preserves (bind m k).
Proof.
  intros Hm Hk w. unfold bind. specialize (Hm w).
  destruct (m w) as [a w1|p w1]; cbn in *.
  - eapply P_trans; [exact Hm|apply Hk].
  - exact Hm.
Qed.

Lemma preserves_load j : preserves (load j).
Proof. intros w. unfold load. destruct (sl_get _ _ _); apply P_refl. Qed.

Lemma preserves_pmode_at i : preserves (pmode_at i).
Proof.
  intros w. unfold pmode_at. destruct (if 0 <=? i then _ else _); apply P_refl.
Qed.

Lemma preserves_val i : preserves (val i).
Proof.
  unfold val. apply preserves_bind; [apply preserves_gets|].
  intros p. apply preserves_load.
Qed.

Lemma preserves_mval i : preserves (mval i).
Proof.
  unfold mval. apply preserves_bind; [apply preserves_pmode_at|]. intros m.
  destruct (m =? position).
  { apply preserves_bind; [apply preserves_val|intros a; apply preserves_load]. }
  destruct (m =? immediate); [apply preserves_val|].
  destruct (m =? relative); [|apply preserves_throw].
  apply preserves_bind; [apply preserves_gets|]. intros r.
  apply preserves_bind; [apply preserves_val|intros a; apply preserves_load].
Qed.

Lemma preserves_set i v : store_ok -> preserves (set i v).
Proof.
  intros Hst. unfold set.
  apply preserves_bind; [apply preserves_val|]. intros j.
  apply preserves_bind; [apply preserves_pmode_at|]. intros m.
  apply preserves_bind; [apply preserves_gets|]. intros r. apply Hst.
Qed.

Lemma preserves_jump p : pos_ok -> jumped_ok -> preserves (jump p).
Proof.
  intros Hp Hj. unfold jump.
  apply preserves_bind; [intros w; apply Hp|]. intros _ w. apply Hj.
Qed.

(** The effect of an opcode preserves [P] as soon as the primitives it uses
    do: a store for the opcodes that write, a jump for the two jumps, the
    relative base for opcode 9 only, the hooks for input and output only. *)
Lemma preserves_call (f : opfunc) :
  (f = x_add \/ f = x_mult \/ f = x_input \/ f = x_less_than \/ f = x_equals ->
   store_ok) ->
  (f = x_jump_if_true \/ f = x_jump_if_false -> pos_ok /\ jumped_ok) ->
  (f = x_adjust_relative_base -> relbase_ok) ->
  (f = x_input \/ f = x_output -> hooks_ok) ->
  preserves (call f).
Proof.
  intros Hst Hjmp Hrel Hhook.
  assert (Hbin : forall g : Z -> Z -> Z, store_ok ->
            preserves (bind (mval 0) (fun a => bind (mval 1) (fun b =>
              bind (set 2 (g a b)) (fun _ => ret (@None (error E))))))).
  { intros g Hs.
    apply preserves_bind; [apply preserves_mval|]. intros a.
    apply preserves_bind; [apply preserves_mval|]. intros b.
    apply preserves_bind; [apply preserves_set, Hs|].
    intros _. apply (preserves_ret (A:=option (error E))). }
  assert (Hj : forall c : Z -> bool, pos_ok /\ jumped_ok ->
            preserves (bind (mval 0) (fun a =>
              if c a
              then bind (mval 1) (fun t =>
                     bind (jump t) (fun _ => ret (@None (error E))))
              else ret None))).
  { intros c [Hp Hjd].
    apply preserves_bind; [apply preserves_mval|]. intros a.
    destruct (c a); [|apply (preserves_ret (A:=option (error E)))].
    apply preserves_bind; [apply preserves_mval|]. intros t.
    apply preserves_bind; [apply preserves_jump; assumption|].
    intros _. apply (preserves_ret (A:=option (error E))). }
  destruct f; cbn [call].
  - apply preserves_throw.
  - apply (Hbin int_add). apply Hst. auto.
  - apply (Hbin int_mul). apply Hst. auto.
  - apply preserves_bind; [apply preserves_gets|]. intros [g|];
      [|apply (preserves_ret (A:=option (error E)))].
    apply preserves_bind.
    { intros w. unfold call_input. destruct (g (host w)) as [r h'].
      apply Hhook. auto. }
    intros r. destruct (snd r); [apply (preserves_ret (A:=option (error E)))|].
    apply preserves_bind; [apply preserves_set, Hst; auto 6|].
    intros _. apply (preserves_ret (A:=option (error E))).
  - apply preserves_bind; [apply preserves_gets|]. intros [g|];
      [|apply (preserves_ret (A:=option (error E)))].
    apply preserves_bind; [apply preserves_mval|]. intros a.
    apply preserves_bind.
    { intros w. unfold call_output. destruct (g a (host w)) as [r h'].
      apply Hhook. auto. }
    intros r. apply (preserves_ret (A:=option (error E))).
  - apply (Hj (fun a => a >? 0)). apply Hjmp. auto.
  - apply (Hj (fun a => a =? 0)). apply Hjmp. auto.
  - apply (Hbin (fun a b => if a <? b then 1 else 0)). apply Hst. auto 6.
  - apply (Hbin (fun a b => if a =? b then 1 else 0)). apply Hst. auto 6.
  - apply preserves_bind; [apply preserves_gets|]. intros r.
    apply preserves_bind; [apply preserves_mval|]. intros a.
    apply preserves_bind; [intros w; apply Hrel; reflexivity|].
    intros _. apply (preserves_ret (A:=option (error E))).
  - apply (preserves_ret (A:=option (error E))).
Qed.

Lemma preserves_stepInstruction :
  pos_ok -> jumped_ok -> ins_ok -> preserves stepInstruction.
Proof.
  intros Hp Hj Hi. unfold stepInstruction.
  apply preserves_bind; [apply preserves_gets|]. intros v.
  apply preserves_bind.
  { destruct (_ && _); [intros w; apply Hp|apply preserves_ret]. }
  intros _. apply preserves_bind; [intros w; apply Hj|]. intros _.
  apply preserves_bind; [apply preserves_val|]. intros raw.
  destruct (parseInstruction raw) as [i [e|]];
    [apply (preserves_ret (A:=option (error E)))|].
  apply preserves_bind; [intros w; apply Hi|]. intros _.
  apply preserves_bind; [apply preserves_gets|]. intros p.
  apply preserves_bind; [intros w; apply Hp|]. intros _.
  apply (preserves_ret (A:=option (error E))).
Qed.

(** When every primitive preserves [P], so does a whole run. *)
Lemma preserves_VM_Run (n : nat) :
  store_ok -> pos_ok -> jumped_ok -> ins_ok -> relbase_ok -> hooks_ok ->
  forall w r, VM_Run n w = Some r -> P w (result_world r).
Proof.
  intros Hst Hp Hj Hi Hr Hh.
  induction n as [|n IH]; intros w r; cbn [VM_Run]; [discriminate|].
  destruct (guard w); [|intros [= <-]; apply P_refl].
  unfold iteration.
  pose proof (preserves_stepInstruction Hp Hj Hi w) as Hs.
  destruct (stepInstruction w) as [[e|] w1|q w1]; cbn in Hs;
    [intros [= <-]; exact Hs| |intros [= <-]; exact Hs].
  pose proof (preserves_call (x (ins_op (ins (vm w1))))
                (fun _ => Hst) (fun _ => conj Hp Hj) (fun _ => Hr)
                (fun _ => Hh) w1) as Hc.
  destruct (call _ w1) as [[e|] w2|q w2]; cbn in Hc.
  - intros [= <-]. eapply P_trans; eassumption.
  - intros Hrun. eapply P_trans; [exact Hs|].
    eapply P_trans; [exact Hc|]. apply IH. exact Hrun.
  - intros [= <-]. eapply P_trans; eassumption.
Qed.

End Preservation.

(** ** The footprint of a run *)

Lemma only_writes_refl s h : only_writes s h h.
Proof. split; [reflexivity|]. intros l a Hl. exists a. auto. Qed.

Lemma only_writes_trans s h1 h2 h3 :
  only_writes s h1 h2 -> only_writes s h2 h3 -> only_writes s h1 h3.
Proof.
  intros [Hl12 H12] [Hl23 H23]. split; [congruence|].
  intros l a Hl. destruct (H12 _ _ Hl) as (a2 & Ha2 & Hlen2 & Hk2).
  destruct (H23 _ _ Ha2) as (a3 & Ha3 & Hlen3 & Hk3).
  exists a3. split; [exact Ha3|]. split; [congruence|].
  intros k Hk. rewrite Hk3, Hk2 by exact Hk. reflexivity.
Qed.

(** An assignment to an element of a slice stays within its window. *)
Lemma sl_set_only_writes h s j v h' :
  sl_set h s j v = Some h' -> only_writes s h h'.
Proof.
  intros Hs. destruct (sl_set_inv _ _ _ _ _ Hs) as (a & z & Ha & Hg & ->).
  apply sl_get_bounds in Hg. unfold len in Hg.
  split; [apply length_insert|]. intros l a0 Hl.
  destruct (decide (l = s_arr s)) as [->|Hne].
  - rewrite Ha in Hl. injection Hl as <-.
    rewrite list_lookup_insert_eq by (eapply lookup_lt_Some; exact Ha).
    eexists. split; [reflexivity|]. split; [apply length_insert|].
    intros k [Hk|Hk]; [contradiction|].
    apply list_lookup_insert_ne. lia.
  - rewrite list_lookup_insert_ne by congruence. exists a0. auto.
Qed.

(** So does [copy], whatever the two slices are. *)
Lemma copy_only_writes h dst src : only_writes dst h (copy h dst src).
Proof.
  unfold copy. destruct (h !! s_arr dst) as [a|] eqn:Ha;
    [|apply only_writes_refl].
  set (xs := take _ _).
  assert (Hxs : (length xs <= s_len dst)%nat).
  { unfold xs. rewrite length_take. lia. }
  split; [apply length_insert|]. intros l a0 Hl.
  destruct (decide (l = s_arr dst)) as [->|Hne].
  - rewrite Ha in Hl. injection Hl as <-.
    rewrite list_lookup_insert_eq by (eapply lookup_lt_Some; exact Ha).
    eexists. split; [reflexivity|]. split; [apply length_inserts|].
    intros k [Hk|[Hk|Hk]]; [contradiction| |].
    + apply list_lookup_inserts_lt. exact Hk.
    + apply list_lookup_inserts_ge. lia.
  - rewrite list_lookup_insert_ne by congruence. exists a0. auto.
Qed.

Section Footprint.
Context {H E : Type}.
Implicit Types (w : world H E).

Lemma same_config_refl (v : VM H E) : same_config v v.
Proof. repeat split. Qed.

Lemma frame_refl w : frame w w.
Proof. split; [apply same_config_refl|apply only_writes_refl]. Qed.

Lemma frame_trans w1 w2 w3 : frame w1 w2 -> frame w2 w3 -> frame w1 w3.
Proof.
  intros [(Hp & Hm & Hi & Ho) Hw] [(Hp' & Hm' & Hi' & Ho') Hw'].
  split; [repeat split; congruence|].
  rewrite Hm in Hw'. eapply only_writes_trans; eassumption.
Qed.

Lemma frame_on_vm (f : VM H E -> VM H E) w :
  same_config (vm w) (f (vm w)) -> frame w (on_vm f w).
Proof. intros Hc. split; [exact Hc|apply only_writes_refl]. Qed.

Lemma frame_store : store_ok (H:=H) (E:=E) frame.
Proof.
  intros j v w. unfold store.
  destruct (sl_set _ _ _ _) as [h'|] eqn:Hs; cbn; [|apply frame_refl].
  split; [apply same_config_refl|]. eapply sl_set_only_writes. exact Hs.
Qed.

(** X1.  However a run of the VM ends, by a return or by a panic, it has
    kept the VM on the same program and memory slices with the same hooks,
    it has neither added, removed nor resized any array, and the only cells
    that may differ are those of the window of the memory slice: other
    arrays, and the cells of the memory's own array outside the slice, are
    as they were. *)
Theorem VM_Run_footprint (n : nat) w (r : result H E (option (error E))) :
  VM_Run n w = Some r ->
  same_config (vm w) (vm (result_world r)) /\
  only_writes (mem (vm w)) (hp w) (hp (result_world r)).
Proof.
  intros Hrun.
  apply (preserves_VM_Run frame frame_refl frame_trans n); try exact Hrun.
  - exact frame_store.
  - intros p w0. apply frame_on_vm. repeat split.
  - intros b w0. apply frame_on_vm. repeat split.
  - intros i w0. apply frame_on_vm. repeat split.
  - intros r0 w0. apply frame_on_vm. repeat split.
  - intros w0 h'. split; [apply same_config_refl|apply only_writes_refl].
Qed.

(** X2.  The package-level [Run] only writes into the window of the
    buffer it was given: when the run ends, every other array of the
    caller, hence the program when it lies in another array, holds what it
    held. *)
Theorem Run_footprint (n : nat) (program' mem' : slice)
    (input : option (H -> (Z * option E) * H))
    (output : option (Z -> H -> option E * H)) (h : heap) (hst : H)
    (r : result H E (option (error E))) :
  Run n program' mem' input output h hst = Some r ->
  only_writes mem' h (hp (result_world r)) /\
  (s_arr program' <> s_arr mem' ->
   sl_read (hp (result_world r)) program' = sl_read h program').
Proof.
  unfold Run, NewVM. intros Hrun.
  apply VM_Run_footprint in Hrun as [_ Hw]. cbn [vm hp mem] in Hw.
  assert (Hall : only_writes mem' h (hp (result_world r))).
  { eapply only_writes_trans; [apply copy_only_writes|exact Hw]. }
  split; [exact Hall|]. intros Hne. unfold sl_read.
  destruct Hall as [Hlen Hall].
  destruct (h !! s_arr program') as [a|] eqn:Ha.
  - destruct (Hall _ _ Ha) as (a' & Ha' & _ & Hk). rewrite Ha'. cbn.
    f_equal. f_equal. apply list_eq. intros k. apply Hk. auto.
  - apply lookup_ge_None in Ha. rewrite lookup_ge_None_2 by lia. reflexivity.
Qed.

End Footprint.

(** ** What each opcode may change *)

Section Opcodes.
Context {H E : Type}.
Implicit Types (w : world H E).

Ltac not_this_opcode :=
  let Hf := fresh in
  intros Hf; exfalso; decompose [or] Hf; congruence.

Lemma call_keeps_relbase (f : opfunc) w :
  f <> x_adjust_relative_base ->
  relbase (vm (result_world (call f w))) = relbase (vm w).
Proof.
  intros Hf.
  apply (preserves_call (fun a b : world H E => relbase (vm b) = relbase (vm a)));
    try congruence.
  - intros _ j v w0. unfold store. destruct (sl_set _ _ _ _); reflexivity.
  - intros _. split; intros ? ?; reflexivity.
  - intros _ w0 h'. reflexivity.
Qed.

Lemma call_keeps_host (f : opfunc) w :
  f <> x_input -> f <> x_output ->
  host (result_world (call f w)) = host w.
Proof.
  intros Hi Ho.
  apply (preserves_call (fun a b : world H E => host b = host a));
    try congruence.
  - intros _ j v w0. unfold store. destruct (sl_set _ _ _ _); reflexivity.
  - intros _. split; intros ? ?; reflexivity.
  - intros _ r w0. reflexivity.
  - not_this_opcode.
Qed.

Lemma call_keeps_heap (f : opfunc) w :
  f <> x_add -> f <> x_mult -> f <> x_input ->
  f <> x_less_than -> f <> x_equals ->
  hp (result_world (call f w)) = hp w.
Proof.
  intros H1 H2 H3 H7 H8.
  apply (preserves_call (fun a b : world H E => hp b = hp a));
    try congruence.
  - not_this_opcode.
  - intros _. split; intros ? ?; reflexivity.
  - intros _ r w0. reflexivity.
  - intros _ w0 h'. reflexivity.
Qed.

Lemma call_keeps_pos (f : opfunc) w :
  f <> x_jump_if_true -> f <> x_jump_if_false ->
  pos (vm (result_world (call f w))) = pos (vm w) /\
  jumped (vm (result_world (call f w))) = jumped (vm w).
Proof.
  intros H5 H6.
  apply (preserves_call
           (fun a b : world H E =>
              pos (vm b) = pos (vm a) /\ jumped (vm b) = jumped (vm a)));
    try (intros; split; congruence).
  - intros ? ? ? [? ?] [? ?]. split; congruence.
  - intros _ j v w0. unfold store. destruct (sl_set _ _ _ _); split; reflexivity.
  - not_this_opcode.
  - intros _ r w0. split; reflexivity.
  - intros _ w0 h'. split; reflexivity.
Qed.

(** The closure of a table entry, by its code. *)
Lemma ops_x k o :
  ops !! k = Some o ->
  (code o = 1 /\ x o = x_add) \/ (code o = 2 /\ x o = x_mult) \/
  (code o = 3 /\ x o = x_input) \/ (code o = 4 /\ x o = x_output) \/
  (code o = 5 /\ x o = x_jump_if_true) \/
  (code o = 6 /\ x o = x_jump_if_false) \/
  (code o = 7 /\ x o = x_less_than) \/ (code o = 8 /\ x o = x_equals) \/
  (code o = 9 /\ x o = x_adjust_relative_base) \/
  (code o = 99 /\ x o = x_halt).
Proof.
  rewrite ops_lookup. intros Hk.
  decompose [and or] Hk; subst; cbn; auto 20.
Qed.

(** X3.  In a pass of the loop that decodes an instruction of opcode [c],
    whether its effect completes, fails or panics: the relative base changes
    only if [c] is 9; the host, that is the hooks being called, only if [c]
    is 3 or 4; the arrays only if [c] is 1, 2, 3, 7 or 8; and unless [c] is 5
    or 6 the position is left one past the opcode word with the jumped flag
    clear. *)
Theorem opcode_footprint w w1 :
  stepInstruction w = Done None w1 ->
  let c := code (ins_op (ins (vm w1))) in
  let w2 := result_world (call (x (ins_op (ins (vm w1)))) w1) in
  (c <> 9 -> relbase (vm w2) = relbase (vm w)) /\
  (c <> 3 -> c <> 4 -> host w2 = host w) /\
  (c <> 1 -> c <> 2 -> c <> 3 -> c <> 7 -> c <> 8 -> hp w2 = hp w) /\
  (c <> 5 -> c <> 6 ->
   pos (vm w2) = int_add (fetch_addr (vm w)) 1 /\ jumped (vm w2) = false).
Proof.
  intros Hs. cbv zeta.
  destruct (stepInstruction_Done _ _ Hs)
    as (word & _ & _ & Hpos & Hj & Hhp & Hhost & _ & _ & Hrel & _).
  destruct (stepInstruction_op _ _ Hs) as (k & Hk). apply ops_x in Hk.
  rewrite <- Hrel, <- Hhost, <- Hhp, <- Hpos, <- Hj.
  split; [|split; [|split]]; intros.
  - apply call_keeps_relbase. decompose [and or] Hk; congruence.
  - apply call_keeps_host; decompose [and or] Hk; congruence.
  - apply call_keeps_heap; decompose [and or] Hk; congruence.
  - apply call_keeps_pos; decompose [and or] Hk; congruence.
Qed.

End Opcodes.

(** ** The panics of a run *)

Section Panics.
Context {H E : Type}.
Implicit Types (w : world H E).

Lemma mode_of_digit_known d m : mode_of_digit d = Some m -> known_mode m.
Proof.
  rewrite mode_of_digit_Some. unfold known_mode. intuition.
Qed.

(** A successful decoding has appended one known mode per parameter. *)
Lemma parse_modes_success k :
  forall (i0 i : instruction) q,
  parse_modes (E:=E) k i0 q = (i, None) ->
  exists ms, pmodes i = pmodes i0 ++ ms /\ length ms = k /\
             Forall known_mode ms.
Proof.
  induction k as [|k IH]; intros i0 i q; cbn.
  - intros [= <-]. exists []. rewrite app_nil_r. auto.
  - destruct (mode_of_digit (Z.rem q 10)) as [m|] eqn:Hm; [|discriminate].
    intros Hp. apply IH in Hp as (ms & Hms & Hl & Hk). cbn in Hms.
    exists (m :: ms). rewrite Hms, <- app_assoc. split; [reflexivity|].
    split; [cbn; lia|]. constructor; [eapply mode_of_digit_known; eauto|exact Hk].
Qed.

Lemma parseInstruction_modes word (i : instruction) :
  parseInstruction (E:=E) word = (i, None) ->
  Z.of_nat (length (pmodes i)) = pc (ins_op i) /\
  Forall known_mode (pmodes i).
Proof.
  intros Hp. pose proof (parseInstruction_op _ _ Hp) as Ho.
  apply ops_pc in Ho. revert Hp. unfold parseInstruction. cbv zeta.
  destruct (ops !! Z.rem word 100) as [o|]; [|discriminate].
  intros Hp. pose proof (parse_modes_op _ _ _ _ _ Hp) as Hop.
  apply parse_modes_success in Hp as (ms & Hms & Hl & Hk).
  cbn in Hms, Hop. rewrite Hop in Ho. rewrite Hms, Hop. split; [lia|exact Hk].
Qed.

Lemma load_panic j w p w' : load j w = Panicked p w' -> p = IndexOutOfRange.
Proof.
  unfold load. destruct (sl_get _ _ _); [discriminate|]. intros [= <- _].
  reflexivity.
Qed.

Lemma val_panic i w p w' : val i w = Panicked p w' -> p = IndexOutOfRange.
Proof. unfold val, bind, gets. apply load_panic. Qed.

Lemma mval_panic i w p w' :
  Forall known_mode (pmodes (ins (vm w))) ->
  mval i w = Panicked p w' -> p = IndexOutOfRange.
Proof.
  intros Hk. unfold mval, bind, pmode_at, gets, throw.
  destruct (if 0 <=? i then _ else _) as [m|] eqn:Hm;
    [|intros [= <- _]; reflexivity].
  assert (Hkm : known_mode m).
  { destruct (0 <=? i); [|discriminate].
    eapply Forall_lookup_1; eassumption. }
  destruct Hkm as [-> | [-> | ->]].
  - change (position =? position) with true. cbv beta iota.
    destruct (val i w) as [a wa|q wa] eqn:Hv.
    + apply load_panic.
    + intros [= <- _]. eapply val_panic. exact Hv.
  - change (immediate =? position) with false.
    change (immediate =? immediate) with true. cbv beta iota.
    apply val_panic.
  - change (relative =? position) with false.
    change (relative =? immediate) with false.
    change (relative =? relative) with true. cbv beta iota.
    destruct (val i w) as [a wa|q wa] eqn:Hv.
    + apply load_panic.
    + intros [= <- _]. eapply val_panic. exact Hv.
Qed.

Lemma set_panic i v w p w' : set i v w = Panicked p w' -> p = IndexOutOfRange.
Proof.
  unfold set, bind, pmode_at, gets, store.
  destruct (val i w) as [j wj|q wj] eqn:Hv.
  - destruct (if 0 <=? i then _ else _); [|intros [= <- _]; reflexivity].
    destruct (sl_set _ _ _ _); [discriminate|]. intros [= <- _]. reflexivity.
  - intros [= <- _]. eapply val_panic. exact Hv.
Qed.

Ltac read_or_panic Hk :=
  match goal with
  | |- context [match mval ?i ?w with _ => _ end] =>
      let Hm := fresh "Hm" in
      let wa := fresh "wa" in
      destruct (mval i w) as [? wa|? wa] eqn:Hm;
      [apply mval_inv in Hm; subst wa
      |intros [= <- _]; eapply mval_panic; [exact Hk|exact Hm]]
  end.

Ltac write_or_panic :=
  match goal with
  | |- context [match set ?i ?v ?w with _ => _ end] =>
      let Hs := fresh "Hs" in
      destruct (set i v w) as [[] ?|? ?] eqn:Hs;
      [discriminate|intros [= <- _]; eapply set_panic; exact Hs]
  end.

(** With known modes, the effect of a table entry can only panic on an
    index. *)
Lemma call_panic (f : opfunc) w p w' :
  f <> x_nil -> Forall known_mode (pmodes (ins (vm w))) ->
  call f w = Panicked p w' -> p = IndexOutOfRange.
Proof.
  intros Hf Hk.
  destruct f; cbn [call]; unfold bind, throw, ret, gets, modify, jump,
    call_input, call_output; try congruence.
  - read_or_panic Hk. read_or_panic Hk. write_or_panic.
  - read_or_panic Hk. read_or_panic Hk. write_or_panic.
  - destruct (Input (vm w)) as [g|]; [|discriminate].
    destruct (g (host w)) as [[z [e|]] h']; cbn; [discriminate|].
    write_or_panic.
  - destruct (Output (vm w)) as [g|]; [|discriminate].
    read_or_panic Hk. destruct (g _ (host w)) as [o h']. discriminate.
  - read_or_panic Hk. destruct (_ >? 0); [|discriminate].
    read_or_panic Hk. discriminate.
  - read_or_panic Hk. destruct (_ =? 0); [|discriminate].
    read_or_panic Hk. discriminate.
  - read_or_panic Hk. read_or_panic Hk. write_or_panic.
  - read_or_panic Hk. read_or_panic Hk. write_or_panic.
  - read_or_panic Hk. discriminate.
Qed.

(** X4.  A run of the VM, from any state, can only panic in two ways: by
    an index out of range, or by the explicit panic after the loop, which
    carries the position and the memory length of the final state.  The
    [unknown pmode] panic of [mval] and a call of the nil closure of the
    zero instruction never happen, because every effect runs on an
    instruction the decoder has just produced. *)
Theorem VM_Run_panics (n : nat) w (p : panic) w' :
  VM_Run n w = Some (Panicked p w') ->
  p = IndexOutOfRange \/ p = GotHere (pos (vm w')) (len (mem (vm w'))).
Proof.
  revert w. induction n as [|n IH]; intros w; cbn [VM_Run]; [discriminate|].
  destruct (guard w); [|intros [= <- <-]; right; reflexivity].
  unfold iteration. rewrite stepInstruction_eq.
  destruct (sl_get _ _ _) as [word|]; [|intros [= <- _]; left; reflexivity].
  destruct (parseInstruction word) as [i [e|]] eqn:Hp; [discriminate|].
  destruct (call (x (ins_op i)) (after_decode i w)) as [[e|] w2|q w2] eqn:Hc;
    cbn [after_decode on_vm vm ins with_pos with_ins] in *; rewrite Hc.
  - discriminate.
  - apply IH.
  - intros [= <- _]. left.
    destruct (parseInstruction_modes _ _ Hp) as [_ Hk].
    apply parseInstruction_op in Hp. apply ops_x in Hp.
    apply (call_panic (x (ins_op i)) (after_decode i w) q w2);
      [|exact Hk|exact Hc].
    decompose [and or] Hp; congruence.
Qed.

End Panics.

(** ** More on the decoder *)

Section DecoderDigits.
Context {E : Type}.

(** Where the loop stops on a digit that is no mode, and what it returns. *)
Lemma parse_modes_failure k :
  forall (i0 i' : instruction) (q : Z) (e : error E),
  0 <= q ->
  parse_modes k i0 q = (i', Some e) ->
  exists (j : nat) ms,
    (j < k)%nat /\ e = ErrUnknownParamMode (q / 10 ^ Z.of_nat j) /\
    mode_of_digit ((q / 10 ^ Z.of_nat j) mod 10) = None /\
    i' = Instruction (ins_op i0) (pmodes i0 ++ ms) /\ length ms = j.
Proof.
  induction k as [|k IH]; intros i0 i' q e Hq; cbn [parse_modes];
    [discriminate|].
  rewrite Z.rem_mod_nonneg by lia.
  destruct (mode_of_digit (q mod 10)) as [m|] eqn:Hm.
  - rewrite Z.quot_div_nonneg by lia. intros Hp.
    apply IH in Hp as (j & ms & Hj & -> & Hd & -> & Hl);
      [|apply Z.div_pos; lia].
    exists (S j), (m :: ms). cbn [ins_op pmodes].
    rewrite Nat2Z.inj_succ, Z.pow_succ_r, <- Z.div_div, <- app_assoc by lia.
    repeat split; [lia|exact Hd|cbn; lia].
  - intros [= <- <-]. exists 0%nat, []. cbn. rewrite Z.div_1_r, app_nil_r.
    destruct i0. repeat split; [lia|exact Hm].
Qed.

Lemma mode_digit_high_digits inp (k : Z) (n i : nat) :
  (i < n)%nat ->
  mode_digit (inp + k * 10 ^ (2 + Z.of_nat n)) i = mode_digit inp i.
Proof.
  intros Hi. unfold mode_digit.
  replace (2 + Z.of_nat n) with ((Z.of_nat n - Z.of_nat i) + (2 + Z.of_nat i)) by lia.
  rewrite Z.pow_add_r, Z.mul_assoc by lia.
  rewrite Z.div_add by (apply Z.pow_nonzero; lia).
  replace (Z.of_nat n - Z.of_nat i) with (Z.succ (Z.of_nat n - Z.of_nat i - 1)) by lia.
  rewrite Z.pow_succ_r by lia.
  replace (k * (10 * 10 ^ (Z.of_nat n - Z.of_nat i - 1)))
    with (k * 10 ^ (Z.of_nat n - Z.of_nat i - 1) * 10) by lia.
  apply Z_mod_plus_full.
Qed.

Lemma rem_100_high_digits inp (k : Z) (n : nat) :
  0 <= inp -> 0 <= k ->
  Z.rem (inp + k * 10 ^ (2 + Z.of_nat n)) 100 = Z.rem inp 100.
Proof.
  intros Hi Hk.
  assert (0 <= k * 10 ^ (2 + Z.of_nat n)) by (apply Z.mul_nonneg_nonneg; lia).
  rewrite !Z.rem_mod_nonneg by lia.
  rewrite Z.pow_add_r by lia. change (10 ^ 2) with 100.
  replace (k * (100 * 10 ^ Z.of_nat n)) with (k * 10 ^ Z.of_nat n * 100) by lia.
  apply Z_mod_plus_full.
Qed.

(** X5.  The decoder looks at no digit above the mode of the last
    parameter: a word that decodes keeps decoding, to the same instruction,
    when anything is added to it above those digits.  (Thus 1399, 99 plus
    13 hundreds, is halt, and 1000001 is the addition 1.) *)
Theorem parseInstruction_ignores_high_digits (inp k : Z) (i : instruction) :
  parseInstruction (E:=E) inp = (i, None) ->
  0 <= k ->
  parseInstruction (E:=E) (inp + k * 10 ^ (2 + pc (ins_op i))) = (i, None).
Proof.
  intros Hp Hk. pose proof (parseInstruction_op _ _ Hp) as Ho.
  assert (Hpos : 0 <= inp).
  { assert (Hin : Z.rem inp 100 ∈ opcodes) by (apply ops_is_Some; eauto).
    apply opcodes_pos, rem_100_pos in Hin. lia. }
  pose proof (ops_pc _ _ Ho) as Hpc.
  set (n := Z.to_nat (pc (ins_op i))).
  replace (pc (ins_op i)) with (Z.of_nat n) by (unfold n; lia).
  assert (Hk' : 0 <= k * 10 ^ (2 + Z.of_nat n)) by (apply Z.mul_nonneg_nonneg; lia).
  revert Hp. unfold parseInstruction. cbv zeta.
  rewrite rem_100_high_digits, Ho by assumption. fold n.
  destruct (parse_modes_digits (E:=E) n
              (Instruction (ins_op i) (pmodes instruction_zero))
              (Z.quot inp 100) ltac:(apply Z.quot_pos; lia))
    as [(ms & Hp & Hl & Hd)|(j & i' & Hj & Hd & Hp)];
    rewrite Hp; [|discriminate]. intros [= Hi].
  destruct (parse_modes_digits (E:=E) n
              (Instruction (ins_op i) (pmodes instruction_zero))
              (Z.quot (inp + k * 10 ^ (2 + Z.of_nat n)) 100)
              ltac:(apply Z.quot_pos; lia))
    as [(ms' & Hp' & Hl' & Hd')|(j & i' & Hj & Hd' & Hp')].
  - rewrite Hp'. apply (f_equal (fun z => (z, @None (error E)))).
    etransitivity; [|exact Hi]. cbn [pmodes instruction_zero app].
    f_equal. apply list_eq. intros j.
    destruct (decide (j < n)%nat) as [Hj|Hj].
    + rewrite <- Hd, <- Hd' by exact Hj.
      rewrite !mode_digit_quot by lia.
      rewrite mode_digit_high_digits by exact Hj. reflexivity.
    + rewrite !lookup_ge_None_2 by lia. reflexivity.
  - exfalso. rewrite mode_digit_quot in Hd' by lia.
    rewrite mode_digit_high_digits in Hd' by exact Hj.
    rewrite <- mode_digit_quot, Hd in Hd' by lia.
    apply lookup_ge_None in Hd'. lia.
Qed.

(** X6.  When decoding fails on the mode of parameter [j], the instruction
    returned with the error holds the opcode's entry and the [j] modes
    decoded so far, and the error carries the quotient left at that point,
    [inp / 10 ^ (2 + j)], whose last digit is the offending one: a number
    smaller than the instruction word, which the error does not carry. *)
Theorem parseInstruction_mode_error (inp w : Z) (i' : instruction) :
  parseInstruction (E:=E) inp = (i', Some (ErrUnknownParamMode w)) ->
  exists j : nat,
    ops !! Z.rem inp 100 = Some (ins_op i') /\
    Z.of_nat j < pc (ins_op i') /\ length (pmodes i') = j /\
    w = inp / 10 ^ (2 + Z.of_nat j) /\ ~ (0 <= w mod 10 <= 2) /\
    0 <= w < inp.
Proof.
  unfold parseInstruction. cbv zeta.
  destruct (ops !! Z.rem inp 100) as [o|] eqn:Ho; [|discriminate].
  intros Hp.
  assert (Hpos : 0 < inp).
  { assert (Hin : Z.rem inp 100 ∈ opcodes) by (apply ops_is_Some; eauto).
    apply opcodes_pos, rem_100_pos in Hin. exact Hin. }
  apply parse_modes_failure in Hp as (j & ms & Hj & [= ->] & Hd & -> & Hl);
    [|apply Z.quot_pos; lia].
  rewrite Z.quot_div_nonneg, Z.div_div in * by lia.
  change 100 with (10 ^ 2) in *. rewrite <- Z.pow_add_r in * by lia.
  exists j. cbn [ins_op pmodes instruction_zero app].
  pose proof (ops_pc _ _ Ho).
  split; [reflexivity|]. split; [lia|]. split; [exact Hl|].
  split; [reflexivity|]. split; [apply mode_of_digit_None; exact Hd|].
  split; [apply Z.div_pos; lia|].
  apply Z.div_lt; [lia|]. apply (Z.lt_le_trans _ (10 ^ 2)); [lia|].
  apply Z.pow_le_mono_r; lia.
Qed.

End DecoderDigits.

(** ** The opcodes that write *)

Lemma sl_get_set_other h s j v h' j' :
  sl_set h s j v = Some h' -> j' <> j -> sl_get h' s j' = sl_get h s j'.
Proof.
  intros Hs Hne. destruct (sl_set_inv _ _ _ _ _ Hs) as (a & z & Ha & Hg & ->).
  apply sl_get_bounds in Hg.
  destruct (decide (0 <= j' < len s)) as [Hin|Hout].
  - rewrite !sl_get_in by exact Hin. rewrite Ha.
    rewrite list_lookup_insert_eq by (eapply lookup_lt_Some; exact Ha).
    apply list_lookup_insert_ne. lia.
  - rewrite !sl_get_out by exact Hout. reflexivity.
Qed.

Section Writes.
Context {H E : Type}.
Implicit Types (w : world H E).

(** A write through [set]: one cell when the target is an index of the
    memory, a panic that changes nothing otherwise. *)
Lemma set_writes_cell w i raw m v :
  0 <= i ->
  sl_get (hp w) (mem (vm w)) (int_add (pos (vm w)) i) = Some raw ->
  pmodes (ins (vm w)) !! Z.to_nat i = Some m ->
  let t := if m =? relative then int_add raw (relbase (vm w)) else raw in
  match sl_get (hp w) (mem (vm w)) t with
  | Some _ => exists w', set i v w = Done tt w' /\ writes_cell w t v w'
  | None => set i v w = Panicked IndexOutOfRange w
  end.
Proof.
  intros Hi Hraw Hm t. rewrite (set_store _ _ _ _ _ Hi Hm Hraw). fold t.
  unfold store, sl_set.
  destruct (sl_get (hp w) (mem (vm w)) t) as [old|] eqn:Ht; [|reflexivity].
  destruct (sl_set_Some _ _ _ _ v Ht) as (a & Ha & Hs). rewrite Ha.
  eexists. split; [reflexivity|]. split; [reflexivity|]. split; [reflexivity|].
  cbn [hp]. split.
  - eapply sl_get_set_same. exact Hs.
  - intros j Hj. eapply sl_get_set_other; eassumption.
Qed.

(** X7.  The four opcodes with two operands and a target (1, 2, 7, 8): with
    [a] and [b] the resolved operands and [t] the index the third parameter
    designates ([raw], or [raw + relbase] in relative mode), the effect
    writes into cell [t] the sum, the product (both reduced to a Go int),
    or 1 or 0 as [a < b], respectively [a = b], holds or not, and changes
    nothing else; when [t] is no index of the memory it panics and nothing
    at all has changed. *)
Theorem binary_opcodes w a b raw m (f : opfunc) (g : Z) :
  mval 0 w = Done a w -> mval 1 w = Done b w ->
  sl_get (hp w) (mem (vm w)) (int_add (pos (vm w)) 2) = Some raw ->
  pmodes (ins (vm w)) !! 2%nat = Some m ->
  (f, g) ∈ [(x_add, int_add a b); (x_mult, int_mul a b);
            (x_less_than, if a <? b then 1 else 0);
            (x_equals, if a =? b then 1 else 0)] ->
  let t := if m =? relative then int_add raw (relbase (vm w)) else raw in
  match sl_get (hp w) (mem (vm w)) t with
  | Some _ => exists w', call f w = Done None w' /\ writes_cell w t g w'
  | None => call f w = Panicked IndexOutOfRange w
  end.
Proof.
  intros Ha Hb Hraw Hm Hfg t.
  pose proof (set_writes_cell w 2 raw m g ltac:(lia) Hraw Hm) as Hset.
  cbv zeta in Hset. fold t in Hset.
  assert (Hcall : call f w =
            match set 2 g w with
            | Done _ w' => Done None w'
            | Panicked p w' => Panicked p w'
            end).
  { rewrite !elem_of_cons, elem_of_nil in Hfg.
    destruct Hfg as [Hfg|[Hfg|[Hfg|[Hfg|[]]]]]; injection Hfg as -> ->;
      cbn [call]; unfold bind, ret; rewrite Ha, Hb; reflexivity. }
  rewrite Hcall.
  destruct (sl_get (hp w) (mem (vm w)) t).
  - destruct Hset as (w' & -> & Hw). eauto.
  - rewrite Hset. reflexivity.
Qed.

End Writes.

(** ** Input and output *)

Section Hooks.
Context {H E : Type}.
Implicit Types (w : world H E).

Lemma ops_x_of_code k o :
  ops !! k = Some o ->
  (code o = 3 -> x o = x_input) /\ (code o = 4 -> x o = x_output).
Proof.
  intros Hk. apply ops_x in Hk.
  split; intros Hc; decompose [and or] Hk; congruence.
Qed.

Lemma VM_Run_decoded (n : nat) w w1 :
  guard w = true -> stepInstruction w = Done None w1 ->
  VM_Run (S n) w =
  match call (x (ins_op (ins (vm w1)))) w1 with
  | Done (Some err) w2 => Some (Done (if is_halt err then None else Some err) w2)
  | Done None w2 => VM_Run n w2
  | Panicked p w2 => Some (Panicked p w2)
  end.
Proof.
  intros Hg Hs. cbn [VM_Run]. rewrite Hg. unfold iteration. rewrite Hs.
  destruct (call _ w1) as [[e|] w2|p w2]; reflexivity.
Qed.

(** X8.  In a pass that decodes opcode 3, respectively 4: when the hook is
    nil, [Run] returns the missing-hook error without reading any operand;
    when the hook returns an error, [Run] returns that error, the hook having
    been called once (for output, with the resolved operand).  In each case
    the arrays are those the pass started with. *)
Theorem hook_errors (n : nat) w w1 :
  guard w = true -> stepInstruction w = Done None w1 ->
  let c := code (ins_op (ins (vm w1))) in
  hp w1 = hp w /\ host w1 = host w /\
  (c = 3 -> Input (vm w) = None ->
   VM_Run (S n) w = Some (Done (Some ErrNoInput) w1)) /\
  (c = 4 -> Output (vm w) = None ->
   VM_Run (S n) w = Some (Done (Some ErrNoOutput) w1)) /\
  (c = 3 -> forall g z e h',
   Input (vm w) = Some g -> g (host w) = ((z, Some e), h') ->
   VM_Run (S n) w =
     Some (Done (Some (ErrHook e)) (World (vm w1) (hp w) h'))) /\
  (c = 4 -> forall g a e h',
   Output (vm w) = Some g -> mval 0 w1 = Done a w1 ->
   g a (host w) = (Some e, h') ->
   VM_Run (S n) w =
     Some (Done (Some (ErrHook e)) (World (vm w1) (hp w) h'))).
Proof.
  intros Hg Hs. cbv zeta.
  destruct (stepInstruction_Done _ _ Hs)
    as (word & _ & _ & _ & _ & Hhp & Hhost & _ & _ & _ & Hin & Hout).
  destruct (stepInstruction_op _ _ Hs) as (k & Hk).
  destruct (ops_x_of_code _ _ Hk) as [H3 H4].
  rewrite (VM_Run_decoded n _ _ Hg Hs).
  split; [exact Hhp|]. split; [exact Hhost|].
  rewrite <- Hin, <- Hout, <- Hhp, <- Hhost.
  split; [|split; [|split]].
  - intros Hc Hnil. rewrite (H3 Hc). cbn [call]. unfold bind, gets, ret.
    rewrite Hnil. reflexivity.
  - intros Hc Hnil. rewrite (H4 Hc). cbn [call]. unfold bind, gets, ret.
    rewrite Hnil. reflexivity.
  - intros Hc g z e h' Hhook Hres. rewrite (H3 Hc). cbn [call].
    unfold bind, gets, ret, call_input. rewrite Hhook, Hres. reflexivity.
  - intros Hc g a e h' Hhook Ha Hres. rewrite (H4 Hc). cbn [call].
    unfold bind, gets, ret, call_output. rewrite Hhook, Ha, Hres. reflexivity.
Qed.

(** X9.  In a pass that decodes opcode 3 with a hook that yields [z]: the
    hook is called first and only then is the target resolved, so that [z]
    is stored in cell [t] and the loop goes on, nothing else having changed
    but the host; or, when [t] is no index of the memory, the pass panics
    with the input already consumed.  In a pass that decodes opcode 4 with
    a hook that accepts the resolved operand, the loop goes on with the
    arrays and the VM untouched. *)
Theorem hook_successes w w1 :
  stepInstruction w = Done None w1 ->
  let c := code (ins_op (ins (vm w1))) in
  (c = 3 -> forall g z h' raw m,
   Input (vm w) = Some g -> g (host w) = ((z, None), h') ->
   sl_get (hp w1) (mem (vm w1)) (int_add (pos (vm w1)) 0) = Some raw ->
   pmodes (ins (vm w1)) !! 0%nat = Some m ->
   let t := if m =? relative then int_add raw (relbase (vm w1)) else raw in
   let wi := World (vm w1) (hp w1) h' in
   match sl_get (hp w1) (mem (vm w1)) t with
   | Some _ => exists w2, iteration w = Continue w2 /\ writes_cell wi t z w2
   | None => iteration w = Stop (Panicked IndexOutOfRange wi)
   end) /\
  (c = 4 -> forall g a h',
   Output (vm w) = Some g -> mval 0 w1 = Done a w1 ->
   g a (host w) = (None, h') ->
   iteration w = Continue (World (vm w1) (hp w1) h')).
Proof.
  intros Hs. cbv zeta.
  destruct (stepInstruction_Done _ _ Hs)
    as (word & _ & _ & _ & _ & _ & Hhost & _ & _ & _ & Hin & Hout).
  destruct (stepInstruction_op _ _ Hs) as (k & Hk).
  destruct (ops_x_of_code _ _ Hk) as [H3 H4].
  unfold iteration. rewrite Hs. rewrite <- Hin, <- Hout, <- Hhost. split.
  - intros Hc g z h' raw m Hhook Hres Hraw Hm. rewrite (H3 Hc). cbn [call].
    unfold bind, gets, ret, call_input. rewrite Hhook, Hres. cbn [snd fst].
    pose proof (set_writes_cell (World (vm w1) (hp w1) h') 0 raw m z
                  ltac:(lia) Hraw Hm) as Hset.
    cbv zeta in Hset. cbn [vm hp] in Hset. revert Hset.
    set (t := if m =? relative then int_add raw (relbase (vm w1)) else raw).
    destruct (sl_get (hp w1) (mem (vm w1)) t); intros Hset.
    + destruct Hset as (w2 & -> & Hw). eauto.
    + rewrite Hset. reflexivity.
  - intros Hc g a h' Hhook Ha Hres. rewrite (H4 Hc). cbn [call].
    unfold bind, gets, ret, call_output. rewrite Hhook, Ha, Hres. reflexivity.
Qed.

End Hooks.


(** * Program text *)

(** ** Digits *)

Lemma digit_of_digit_char d : 0 <= d <= 9 -> digit_of (digit_char d) = Some d.
Proof.
  intros Hd.
  assert (Hc : d = 0 \/ d = 1 \/ d = 2 \/ d = 3 \/ d = 4 \/ d = 5 \/ d = 6 \/
               d = 7 \/ d = 8 \/ d = 9) by lia.
  decompose [or] Hc; subst; reflexivity.
Qed.

Lemma digit_of_bounds c d : digit_of c = Some d -> 0 <= d <= 9.
Proof.
  unfold digit_of.
  destruct (Z.leb_spec 48 (Z.of_nat (nat_of_ascii c)));
    destruct (Z.leb_spec (Z.of_nat (nat_of_ascii c)) 57); cbn;
    intros [= <-]; lia.
Qed.

(** A digit is none of the other bytes of a program text. *)
Lemma digit_not_special c :
  digit_of c <> None ->
  c <> "-"%char /\ c <> "+"%char /\ c <> comma /\ c <> newline.
Proof.
  intros Hc. repeat split; intros ->; apply Hc; reflexivity.
Qed.

Lemma digits_value_app n s r :
  digits_value n (s ++ r) =
  match digits_value n s with
  | Some m => digits_value m r
  | None => None
  end.
Proof.
  revert n. induction s as [|c s IH]; intros n; cbn; [reflexivity|].
  destruct (digit_of c); [apply IH|reflexivity].
Qed.

Lemma digits_value_digits n s m :
  digits_value n s = Some m -> Forall (fun c => digit_of c <> None) s.
Proof.
  revert n. induction s as [|c s IH]; intros n; cbn; [constructor|].
  destruct (digit_of c) eqn:Hc; [|discriminate].
  intros Hv. constructor; [congruence|eapply IH; exact Hv].
Qed.

(** The digit loop writes the decimal digits of [u], most significant
    first: scanning them back multiplies what was read before by the right
    power of ten and adds [u]. *)
Lemma format_digits_spec (fuel : nat) :
  forall (u : Z) (acc : list ascii),
  (0 < fuel)%nat -> 0 <= u < 10 ^ Z.of_nat fuel ->
  exists ds,
    format_digits fuel u acc = ds ++ acc /\ ds <> [] /\
    Forall (fun c => digit_of c <> None) ds /\
    forall n, digits_value n ds = Some (n * 10 ^ Z.of_nat (length ds) + u).
Proof.
  induction fuel as [|fuel IH]; intros u acc Hf Hu; [lia|].
  cbn [format_digits]. destruct (Z.ltb_spec u 10) as [Hlt|Hge].
  - exists [digit_char u]. split; [reflexivity|]. split; [discriminate|].
    split.
    + constructor; [|constructor]. rewrite digit_of_digit_char by lia. discriminate.
    + intros n. cbn. rewrite digit_of_digit_char by lia. f_equal. 
  - assert (Hq : 0 <= u / 10 < 10 ^ Z.of_nat fuel).
    { split; [apply Z.div_pos; lia|].
      apply Z.div_lt_upper_bound; [lia|].
      rewrite Nat2Z.inj_succ, Z.pow_succ_r in Hu by lia. lia. }
    assert (Hfuel : (0 < fuel)%nat).
    { destruct fuel; [|lia]. cbn in Hq.
      assert (1 <= u / 10) by (apply Z.div_le_lower_bound; lia). lia. }
    destruct (IH (u / 10) (digit_char (u mod 10) :: acc) Hfuel Hq)
      as (ds & Hds & Hne & Hall & Hval).
    pose proof (Z.mod_pos_bound u 10 ltac:(lia)) as Hm.
    exists (ds ++ [digit_char (u mod 10)]).
    split; [rewrite Hds, <- app_assoc; reflexivity|].
    split; [destruct ds; discriminate|].
    split.
    + apply Forall_app. split; [exact Hall|].
      constructor; [|constructor]. rewrite digit_of_digit_char by lia. discriminate.
    + intros n. rewrite digits_value_app, Hval. cbn.
      rewrite digit_of_digit_char by lia. f_equal.
      rewrite length_app, Nat2Z.inj_add. cbn [length].
      rewrite Z.pow_add_r by lia. change (10 ^ Z.of_nat 1) with 10.
      pose proof (Z.div_mod u 10 ltac:(lia)). lia.
Qed.

(** The text of an [int]: a minus sign for a negative one, then digits. *)
Lemma Itoa_spec (i : Z) :
  int_min <= i <= int_max ->
  exists ds,
    Itoa i = (if i <? 0 then ["-"%char] else []) ++ ds /\ ds <> [] /\
    Forall (fun c => digit_of c <> None) ds /\
    digits_value 0 ds = Some (Z.abs i).
Proof.
  unfold int_min, int_max. intros Hi. unfold Itoa.
  assert (Hpow : 10 ^ Z.of_nat 20 = 100000000000000000000) by reflexivity.
  destruct (Z.ltb_spec i 0) as [Hneg|Hpos].
  - destruct (format_digits_spec 20 (- i) [] ltac:(lia) ltac:(lia))
      as (ds & Hds & Hne & Hall & Hval).
    exists ds. rewrite Hds, app_nil_r. split; [reflexivity|].
    split; [exact Hne|]. split; [exact Hall|]. rewrite Hval. f_equal. lia.
  - destruct (format_digits_spec 20 i [] ltac:(lia) ltac:(lia))
      as (ds & Hds & Hne & Hall & Hval).
    exists ds. rewrite Hds, app_nil_r. split; [reflexivity|].
    split; [exact Hne|]. split; [exact Hall|]. rewrite Hval. f_equal. lia.
Qed.

(** [Atoi] reads back what [Itoa] wrote. *)
Lemma Atoi_Itoa (i : Z) : int_min <= i <= int_max -> Atoi (Itoa i) = Some i.
Proof.
  intros Hi. destruct (Itoa_spec i Hi) as (ds & -> & Hne & Hall & Hval).
  assert (Hrange : (int_min <=? i) && (i <=? int_max) = true).
  { apply andb_true_intro. split; apply Z.leb_le; lia. }
  destruct ds as [|c ds]; [congruence|].
  destruct (Z.ltb_spec i 0) as [Hneg|Hpos]; unfold Atoi; cbn [app].
  - change (Ascii.eqb "-" "-") with true. cbv iota. rewrite Hval.
    replace (- Z.abs i) with i by lia. rewrite Hrange. reflexivity.
  - apply Forall_cons in Hall as [Hc _].
    apply digit_not_special in Hc as (Hm & Hp & _).
    apply Ascii.eqb_neq in Hm, Hp. rewrite Hm, Hp. rewrite Hval.
    replace (Z.abs i) with i by lia. rewrite Hrange. reflexivity.
Qed.

(** What [Atoi] accepts: a non-empty text of digits and signs, whose value
    is an [int]. *)
Lemma Atoi_Some s i :
  Atoi s = Some i ->
  s <> [] /\ int_min <= i <= int_max /\
  Forall (fun c => digit_of c <> None \/ c = "-"%char \/ c = "+"%char) s.
Proof.
  unfold Atoi. destruct s as [|c r]; [discriminate|].
  assert (Hbody : forall (neg : bool) body,
    match body with
    | [] => None
    | _ :: _ =>
        match digits_value 0 body with
        | Some n =>
            let v := if neg then - n else n in
            if (int_min <=? v) && (v <=? int_max) then Some v else None
        | None => None
        end
    end = Some i ->
    int_min <= i <= int_max /\ Forall (fun c => digit_of c <> None) body).
  { intros neg body. destruct body as [|c' r']; [discriminate|].
    destruct (digits_value 0 (c' :: r')) as [n|] eqn:Hv; [|discriminate].
    cbv zeta. destruct (_ && _) eqn:Hr; [|discriminate]. intros [= <-].
    apply andb_prop in Hr as [Hlo Hhi]. apply Z.leb_le in Hlo, Hhi.
    split; [lia|]. eapply digits_value_digits. exact Hv. }
  destruct (Ascii.eqb_spec c "-"%char) as [->|Hm].
  { intros Hb. apply (Hbody true r) in Hb as [Hr Hd]. split; [discriminate|].
    split; [exact Hr|]. constructor; [auto|].
    eapply Forall_impl; [exact Hd|]. cbn. auto. }
  destruct (Ascii.eqb_spec c "+"%char) as [->|Hp].
  { intros Hb. apply (Hbody false r) in Hb as [Hr Hd]. split; [discriminate|].
    split; [exact Hr|]. constructor; [auto|].
    eapply Forall_impl; [exact Hd|]. cbn. auto. }
  intros Hb. apply (Hbody false (c :: r)) in Hb as [Hr Hd]. split; [discriminate|].
  split; [exact Hr|]. eapply Forall_impl; [exact Hd|]. cbn. auto.
Qed.

(** ** Fields *)

Lemma ReplaceAll_newline_app a b :
  ReplaceAll_newline (a ++ b) = ReplaceAll_newline a ++ ReplaceAll_newline b.
Proof.
  induction a as [|c a IH]; cbn; [reflexivity|].
  destruct (Ascii.eqb c newline); cbn; rewrite IH; reflexivity.
Qed.

Lemma ReplaceAll_newline_id s :
  Forall (fun c => c <> newline) s -> ReplaceAll_newline s = s.
Proof.
  induction 1 as [|c s Hc _ IH]; cbn; [reflexivity|].
  apply Ascii.eqb_neq in Hc. rewrite Hc, IH. reflexivity.
Qed.

Lemma ReplaceAll_newline_chars (Q : ascii -> Prop) s :
  Q newline -> Forall Q (ReplaceAll_newline s) -> Forall Q s.
Proof.
  intros Hn. induction s as [|c s IH]; cbn; [constructor|].
  destruct (Ascii.eqb_spec c newline) as [->|Hc].
  - intros Hs. constructor; auto.
  - intros Hs. apply Forall_cons in Hs as [Hc' Hs]. constructor; auto.
Qed.

Lemma commas_ReplaceAll_newline s : commas (ReplaceAll_newline s) = commas s.
Proof.
  unfold commas. induction s as [|c s IH]; cbn; [reflexivity|].
  destruct (Ascii.eqb_spec c newline) as [->|Hc]; cbn.
  - exact IH.
  - destruct (Ascii.eqb c comma); cbn; rewrite IH; reflexivity.
Qed.

Lemma Split_comma_nonempty s : Split_comma s <> [].
Proof.
  destruct s as [|c r]; cbn; [discriminate|].
  destruct (Ascii.eqb c comma); [discriminate|].
  destruct (Split_comma r); discriminate.
Qed.

(** A text without comma is one field; a comma ends a field. *)
Lemma Split_comma_field part :
  Forall (fun c => c <> comma) part -> Split_comma part = [part].
Proof.
  induction 1 as [|c s Hc _ IH]; cbn; [reflexivity|].
  apply Ascii.eqb_neq in Hc. rewrite Hc, IH. reflexivity.
Qed.

Lemma Split_comma_app part s :
  Forall (fun c => c <> comma) part ->
  Split_comma (part ++ comma :: s) = part :: Split_comma s.
Proof.
  induction 1 as [|c p Hc _ IH]; cbn.
  - change (Ascii.eqb comma comma) with true. reflexivity.
  - apply Ascii.eqb_neq in Hc. rewrite Hc, IH. reflexivity.
Qed.

(** Joining the fields gives the text back, and there is one field more
    than there are commas. *)
Lemma join_Split_comma s : join_commas (Split_comma s) = s.
Proof.
  induction s as [|c r IH]; cbn; [reflexivity|].
  destruct (Ascii.eqb_spec c comma) as [->|Hc].
  - revert IH. unfold join_commas.
    destruct (Split_comma r) as [|p ps] eqn:Hs;
      [destruct (Split_comma_nonempty _ Hs)|].
    cbn. intros <-. reflexivity.
  - revert IH. unfold join_commas.
    destruct (Split_comma r) as [|p ps] eqn:Hs;
      [destruct (Split_comma_nonempty _ Hs)|].
    cbn. intros <-. reflexivity.
Qed.

Lemma length_Split_comma s : length (Split_comma s) = S (commas s).
Proof.
  unfold commas. induction s as [|c r IH]; cbn; [reflexivity|].
  destruct (Ascii.eqb c comma); cbn; [rewrite IH; reflexivity|].
  destruct (Split_comma r) as [|p ps] eqn:Hs;
    [destruct (Split_comma_nonempty _ Hs)|].
  cbn in *. exact IH.
Qed.

Lemma join_commas_chars (Q : ascii -> Prop) parts :
  Q comma -> Forall (Forall Q) parts -> Forall Q (join_commas parts).
Proof.
  intros Hc Hp. destruct Hp as [|p ps Hp Hps]; cbn; [constructor|].
  apply Forall_app. split; [exact Hp|].
  induction Hps as [|q qs Hq _ IH]; cbn; [constructor|].
  constructor; [exact Hc|]. apply Forall_app. auto.
Qed.

(** The loop of [Parse] succeeds exactly when [Atoi] accepts every field,
    and appends their values in order. *)
Lemma parse_parts_Some parts :
  forall acc p,
  parse_parts parts acc = Some p ->
  exists ns, p = acc ++ ns /\
             Forall2 (fun part n => Atoi part = Some n) parts ns.
Proof.
  induction parts as [|part parts IH]; intros acc p; cbn.
  - intros [= <-]. exists []. rewrite app_nil_r. split; [reflexivity|constructor].
  - destruct (Atoi part) as [i|] eqn:Hi; [|discriminate].
    intros Hp. apply IH in Hp as (ns & -> & Hns).
    exists (i :: ns). rewrite <- app_assoc. split; [reflexivity|].
    constructor; assumption.
Qed.

Lemma parse_parts_Itoa ns :
  forall acc,
  Forall (fun n => int_min <= n <= int_max) ns ->
  parse_parts (map Itoa ns) acc = Some (acc ++ ns).
Proof.
  induction ns as [|n ns IH]; intros acc Hns; cbn.
  - rewrite app_nil_r. reflexivity.
  - apply Forall_cons in Hns as [Hn Hns].
    rewrite (Atoi_Itoa n Hn), IH, <- app_assoc by exact Hns. reflexivity.
Qed.

(** ** The text [buildOut] writes *)

Lemma buildOut_from_S rest :
  forall i out,
  buildOut_from (S i) rest out =
  out ++ concat (map (fun n => comma :: Itoa n) rest).
Proof.
  induction rest as [|n rest IH]; intros i out; cbn.
  - rewrite app_nil_r. reflexivity.
  - rewrite IH, <- !app_assoc. reflexivity.
Qed.

Lemma buildOut_join program : buildOut program = join_commas (map Itoa program).
Proof.
  destruct program as [|n rest]; [reflexivity|].
  unfold buildOut. cbn [buildOut_from Nat.ltb Nat.leb]. rewrite buildOut_from_S.
  cbn. f_equal. induction rest as [|m rest IH]; cbn; [reflexivity|].
  rewrite IH. reflexivity.
Qed.

Lemma Itoa_no_separator (i : Z) :
  int_min <= i <= int_max ->
  Forall (fun c => c <> comma) (Itoa i) /\
  Forall (fun c => c <> newline) (Itoa i).
Proof.
  intros Hi. destruct (Itoa_spec i Hi) as (ds & -> & _ & Hall & _).
  assert (Hds : Forall (fun c => c <> comma /\ c <> newline) ds).
  { eapply Forall_impl; [exact Hall|]. intros c Hc.
    apply digit_not_special in Hc. tauto. }
  split; (apply Forall_app; split;
    [destruct (i <? 0); repeat constructor; discriminate
    |eapply Forall_impl; [exact Hds|]; cbn; tauto]).
Qed.

Lemma Split_comma_join_Itoa ns :
  ns <> [] -> Forall (fun n => int_min <= n <= int_max) ns ->
  Split_comma (join_commas (map Itoa ns)) = map Itoa ns.
Proof.
  intros Hne Hns. destruct ns as [|n ns]; [congruence|]. clear Hne.
  revert n Hns. induction ns as [|m ns IH]; intros n Hns; cbn.
  - rewrite app_nil_r. apply Split_comma_field.
    apply Forall_cons in Hns as [Hn _]. apply Itoa_no_separator, Hn.
  - apply Forall_cons in Hns as [Hn Hns].
    rewrite Split_comma_app by (apply Itoa_no_separator, Hn).
    f_equal. apply (IH m Hns).
Qed.

Lemma join_Itoa_no_newline ns :
  Forall (fun n => int_min <= n <= int_max) ns ->
  Forall (fun c => c <> newline) (join_commas (map Itoa ns)).
Proof.
  intros Hns. apply join_commas_chars; [discriminate|].
  apply Forall_map. eapply Forall_impl; [exact Hns|].
  intros n Hn. apply Itoa_no_separator, Hn.
Qed.

(** X10.  [Parse] reads back what [buildOut] writes: for a non-empty
    program of [int]s, parsing the text built from it gives the program.
    The empty program is the exception: its text is empty, and [Parse]
    rejects the empty text. *)
Theorem Parse_buildOut (program' : list Z) :
  program' <> [] ->
  Forall (fun n => int_min <= n <= int_max) program' ->
  Parse (buildOut program') = Some program' /\
  buildOut [] = [] /\ Parse (buildOut []) = None.
Proof.
  intros Hne Hns. split; [|split; reflexivity].
  unfold Parse. cbv zeta. rewrite buildOut_join.
  rewrite ReplaceAll_newline_id by (apply join_Itoa_no_newline, Hns).
  rewrite Split_comma_join_Itoa by assumption.
  apply (parse_parts_Itoa program' [] Hns).
Qed.

(** X11.  What [Parse] accepts.  A text it parses consists of digits,
    signs, commas and newlines only (a space, a tab or a carriage return
    makes it fail), the program has one value more than the text has
    commas, hence is never empty, and every value is an [int]. *)
Theorem Parse_accepts (input : list ascii) (program' : list Z) :
  Parse input = Some program' ->
  Forall program_char input /\
  length program' = S (commas input) /\
  Forall (fun n => int_min <= n <= int_max) program'.
Proof.
  unfold Parse. cbv zeta. intros Hp.
  apply parse_parts_Some in Hp as (ns & -> & Hns). cbn [app].
  split; [|split].
  - apply ReplaceAll_newline_chars; [unfold program_char; auto 6|].
    rewrite <- (join_Split_comma (ReplaceAll_newline input)).
    apply join_commas_chars; [unfold program_char; auto 6|].
    induction Hns as [|part n parts ns Hpn _ IH]; constructor; [|exact IH].
    apply Atoi_Some in Hpn as (_ & _ & Hc).
    eapply Forall_impl; [exact Hc|]. unfold program_char. cbn. tauto.
  - rewrite <- (Forall2_length _ _ _ Hns), length_Split_comma.
    rewrite commas_ReplaceAll_newline. reflexivity.
  - induction Hns as [|part n parts ns Hpn _ IH]; constructor; [|exact IH].
    apply Atoi_Some in Hpn. tauto.
Qed.

(** X12.  [Parse] ignores newlines wherever they are, also between two
    digits of a number: a text with a newline parses as the text without
    it. *)
Theorem Parse_newline (a b : list ascii) :
  Parse (a ++ newline :: b) = Parse (a ++ b).
Proof.
  unfold Parse. cbv zeta. rewrite !ReplaceAll_newline_app. cbn.
  change (Ascii.eqb newline newline) with true. reflexivity.
Qed.

(** X13.  [buildOut] writes the texts of the values with one comma between
    two of them, and no comma at either end: the text of two non-empty
    programs one after the other is the two texts with a comma between. *)
Theorem buildOut_app (p q : list Z) :
  p <> [] -> q <> [] ->
  buildOut (p ++ q) = buildOut p ++ comma :: buildOut q.
Proof.
  intros Hp Hq. rewrite !buildOut_join.
  destruct p as [|n p]; [congruence|]. destruct q as [|m q]; [congruence|].
  cbn. rewrite map_app, map_app, concat_app, <- app_assoc. reflexivity.
Qed.

(** * A copy behaves as its original *)

Lemma sl_get_read h s j :
  slice_ok h s ->
  sl_get h s j = if in_bounds s j then sl_read h s !! Z.to_nat j else None.
Proof.
  intros Hok. unfold in_bounds.
  destruct (Z.leb_spec 0 j); destruct (Z.ltb_spec j (len s)); cbn;
    try (apply sl_get_out; lia).
  rewrite sl_read_lookup by (assumption || unfold len in *; lia).
  rewrite Z2Nat.id by lia. reflexivity.
Qed.

(** An assignment through a slice is an update of what the slice reads. *)
Lemma sl_read_set h s j v h' :
  slice_ok h s -> sl_set h s j v = Some h' ->
  slice_ok h' s /\ sl_read h' s = <[Z.to_nat j := v]> (sl_read h s).
Proof.
  intros (a & Ha & Hlen) Hs.
  destruct (sl_set_inv _ _ _ _ _ Hs) as (a' & z & Ha' & Hg & ->).
  rewrite Ha in Ha'. injection Ha' as <-.
  apply sl_get_bounds in Hg. unfold len in Hg.
  assert (Harr : (s_arr s < length h)%nat) by (eapply lookup_lt_Some; eauto).
  split.
  - eexists. split; [apply list_lookup_insert_eq; exact Harr|].
    rewrite length_insert. exact Hlen.
  - unfold sl_read. rewrite list_lookup_insert_eq, Ha by exact Harr. cbn.
    rewrite drop_insert_ge, take_insert_lt by lia.
    do 2 f_equal. lia.
Qed.

Section Snapshot.
Context {H E : Type}.
Implicit Types (w : world H E).

Lemma same_state_len w w' :
  same_state w w' -> len (mem (vm w')) = len (mem (vm w)).
Proof.
  intros (_ & _ & _ & _ & _ & _ & _ & Hok & Hok' & Hr).
  apply (f_equal length) in Hr. rewrite !length_sl_read in Hr by assumption.
  unfold len. congruence.
Qed.

Lemma same_state_get w w' j :
  same_state w w' ->
  sl_get (hp w') (mem (vm w')) j = sl_get (hp w) (mem (vm w)) j.
Proof.
  intros Hs. pose proof (same_state_len _ _ Hs) as Hl.
  destruct Hs as (_ & _ & _ & _ & _ & _ & _ & Hok & Hok' & Hr).
  rewrite !sl_get_read by assumption. unfold in_bounds. rewrite Hl, Hr.
  reflexivity.
Qed.

Lemma respects_ret {A} (a : A) : respects (H:=H) (E:=E) (ret a).
Proof. intros w w' Hs. split; [reflexivity|exact Hs]. Qed.

Lemma respects_throw {A} (p : panic) : respects (H:=H) (E:=E) (throw (A:=A) p).
Proof. intros w w' Hs. split; [reflexivity|exact Hs]. Qed.

Lemma respects_bind {A B} (m : M H E A) (k : A -> M H E B) :
  respects m -> (forall a, respects (k a)) -> respects (bind m k).
Proof.
  intros Hm Hk w w' Hs. unfold bind. specialize (Hm w w' Hs).
  destruct (m w) as [a w1|p w1]; destruct (m w') as [a' w1'|p' w1'];
    cbn in Hm; try contradiction.
  - destruct Hm as [<- Hs1]. apply Hk, Hs1.
  - exact Hm.
Qed.

Lemma respects_gets {A} (f : VM H E -> A) :
  (forall w w', same_state w w' -> f (vm w') = f (vm w)) ->
  respects (gets f).
Proof. intros Hf w w' Hs. split; [symmetry; apply Hf, Hs|exact Hs]. Qed.

Lemma respects_modify (f : VM H E -> VM H E) :
  (forall w w', same_state w w' -> same_state (on_vm f w) (on_vm f w')) ->
  respects (modify f).
Proof. intros Hf w w' Hs. split; [reflexivity|apply Hf, Hs]. Qed.

Lemma respects_load j : respects (H:=H) (E:=E) (load j).
Proof.
  intros w w' Hs. unfold load. rewrite (same_state_get _ _ j Hs).
  destruct (sl_get _ _ _); (split; [reflexivity|exact Hs]).
Qed.

Lemma respects_store j v : respects (H:=H) (E:=E) (store j v).
Proof.
  intros w w' Hs. unfold store.
  pose proof (same_state_get _ _ j Hs) as Hg.
  destruct (sl_get (hp w) (mem (vm w)) j) as [z|] eqn:Hz.
  - destruct (sl_set_Some _ _ _ _ v Hz) as (a & _ & Hset).
    destruct (sl_set_Some _ _ _ _ v Hg) as (a' & _ & Hset').
    rewrite Hset, Hset'. split; [reflexivity|].
    destruct Hs as (Hp & Hi & Hj & Hr & Hin & Hout & Hh & Hok & Hok' & Hrd).
    destruct (sl_read_set _ _ _ _ _ Hok Hset) as [Hok1 Hrd1].
    destruct (sl_read_set _ _ _ _ _ Hok' Hset') as [Hok1' Hrd1'].
    repeat split; try assumption. cbn [hp vm]. rewrite Hrd1, Hrd1', Hrd.
    reflexivity.
  - unfold sl_set. rewrite Hz, Hg. split; [reflexivity|exact Hs].
Qed.

Lemma respects_pmode_at i : respects (H:=H) (E:=E) (pmode_at i).
Proof.
  intros w w' Hs. unfold pmode_at.
  destruct Hs as (Hp & Hi & Hrest). rewrite Hi.
  destruct (if 0 <=? i then _ else _);
    (split; [reflexivity|repeat split; tauto]).
Qed.

Lemma respects_val i : respects (H:=H) (E:=E) (val i).
Proof.
  unfold val. apply respects_bind.
  - apply respects_gets. intros w w' Hs. apply Hs.
  - intros p. apply respects_load.
Qed.

Lemma respects_mval i : respects (H:=H) (E:=E) (mval i).
Proof.
  unfold mval. apply respects_bind; [apply respects_pmode_at|]. intros m.
  destruct (m =? position).
  { apply respects_bind; [apply respects_val|intros a; apply respects_load]. }
  destruct (m =? immediate); [apply respects_val|].
  destruct (m =? relative); [|apply respects_throw].
  apply respects_bind; [apply respects_gets; intros w w' Hs; apply Hs|].
  intros r.
  apply respects_bind; [apply respects_val|intros a; apply respects_load].
Qed.

Lemma respects_set i v : respects (H:=H) (E:=E) (set i v).
Proof.
  unfold set. apply respects_bind; [apply respects_val|]. intros j.
  apply respects_bind; [apply respects_pmode_at|]. intros m.
  apply respects_bind; [apply respects_gets; intros w w' Hs; apply Hs|].
  intros r. apply respects_store.
Qed.

Ltac same_state_fields :=
  let Hs := fresh in
  intros ? ? Hs; unfold same_state in *; cbn; tauto.

Lemma respects_jump p : respects (H:=H) (E:=E) (jump p).
Proof.
  unfold jump. apply respects_bind.
  - apply respects_modify. same_state_fields.
  - intros _. apply respects_modify. same_state_fields.
Qed.

Lemma respects_call (f : opfunc) : respects (H:=H) (E:=E) (call f).
Proof.
  assert (Hbin : forall g : Z -> Z -> Z,
            respects (H:=H) (E:=E)
              (bind (mval 0) (fun a => bind (mval 1) (fun b =>
                 bind (set 2 (g a b)) (fun _ => ret (@None (error E))))))).
  { intros g.
    apply respects_bind; [apply respects_mval|]. intros a.
    apply respects_bind; [apply respects_mval|]. intros b.
    apply respects_bind; [apply respects_set|]. intros _. apply respects_ret. }
  assert (Hj : forall c : Z -> bool,
            respects (H:=H) (E:=E)
              (bind (mval 0) (fun a =>
                 if c a
                 then bind (mval 1) (fun t =>
                        bind (jump t) (fun _ => ret (@None (error E))))
                 else ret None))).
  { intros c.
    apply respects_bind; [apply respects_mval|]. intros a.
    destruct (c a); [|apply respects_ret].
    apply respects_bind; [apply respects_mval|]. intros t.
    apply respects_bind; [apply respects_jump|]. intros _. apply respects_ret. }
  destruct f; cbn [call].
  - apply respects_throw.
  - apply (Hbin int_add).
  - apply (Hbin int_mul).
  - intros w w' Hs. unfold bind, gets.
    pose proof Hs as (_ & _ & _ & _ & Hin & _ & Hh & _).
    rewrite Hin. destruct (Input (vm w)) as [g|];
      [|split; [reflexivity|exact Hs]].
    unfold call_input. rewrite Hh. destruct (g (host w)) as [[z [e|]] h'].
    + split; [reflexivity|]. unfold same_state in *. cbn. tauto.
    + cbn [snd fst].
      apply (respects_bind (set 0 z) (fun _ => ret (@None (error E))));
        [apply respects_set|intros _; apply respects_ret|].
      unfold same_state in *. cbn. tauto.
  - intros w w' Hs. unfold bind, gets.
    pose proof Hs as (_ & _ & _ & _ & _ & Hout & _).
    rewrite Hout. destruct (Output (vm w)) as [g|];
      [|split; [reflexivity|exact Hs]].
    pose proof (respects_mval 0 w w' Hs) as Hm.
    destruct (mval 0 w) as [a w1|p w1]; destruct (mval 0 w') as [a' w1'|p' w1'];
      cbn in Hm; try contradiction; [|exact Hm].
    destruct Hm as [<- Hs1]. unfold call_output, ret.
    pose proof Hs1 as (_ & _ & _ & _ & _ & _ & Hh & _). rewrite Hh.
    destruct (g a (host w1)) as [r h'].
    split; [reflexivity|]. unfold same_state in *. cbn. tauto.
  - apply (Hj (fun a => a >? 0)).
  - apply (Hj (fun a => a =? 0)).
  - apply (Hbin (fun a b => if a <? b then 1 else 0)).
  - apply (Hbin (fun a b => if a =? b then 1 else 0)).
  - apply respects_bind; [apply respects_gets; intros w w' Hs; apply Hs|].
    intros r. apply respects_bind; [apply respects_mval|]. intros a.
    apply respects_bind; [|intros _; apply respects_ret].
    apply respects_modify. same_state_fields.
  - apply respects_ret.
Qed.

Lemma respects_stepInstruction : respects (H:=H) (E:=E) stepInstruction.
Proof.
  intros w w' Hs. rewrite !stepInstruction_eq.
  assert (Hnext : next_pos (vm w') = next_pos (vm w)).
  { unfold next_pos, pending.
    destruct Hs as (-> & -> & -> & _). reflexivity. }
  assert (Hb : same_state (before_decode w) (before_decode w')).
  { unfold before_decode, on_vm, same_state in *. cbn. rewrite Hnext. tauto. }
  assert (Ha : forall i, same_state (after_decode i w) (after_decode i w')).
  { intros i. unfold after_decode, on_vm, same_state in *. cbn.
    rewrite Hnext. tauto. }
  unfold fetch_addr. rewrite Hnext, (same_state_get _ _ _ Hs).
  destruct (sl_get _ _ _) as [word|]; [|split; [reflexivity|exact Hb]].
  destruct (parseInstruction word) as [i [e|]];
    (split; [reflexivity|auto]).
Qed.

(** Two VMs in the same state run alike. *)
Lemma same_state_VM_Run (n : nat) :
  forall w w', same_state w w' ->
  match VM_Run n w, VM_Run n w' with
  | Some r, Some r' => same_result r r'
  | None, None => True
  | _, _ => False
  end.
Proof.
  induction n as [|n IH]; intros w w' Hs; cbn [VM_Run]; [exact I|].
  unfold guard. rewrite (same_state_len _ _ Hs).
  pose proof Hs as (Hp & _). rewrite Hp.
  destruct (_ <=? _); [|split; [congruence|exact Hs]].
  unfold iteration.
  pose proof (respects_stepInstruction w w' Hs) as Hstep.
  destruct (stepInstruction w) as [[e|] w1|p w1];
    destruct (stepInstruction w') as [[e'|] w1'|p' w1'];
    cbn in Hstep; try contradiction; try (destruct Hstep; discriminate);
    try exact Hstep.
  destruct Hstep as [_ Hs1].
  pose proof Hs1 as (_ & Hi & _). rewrite Hi.
  pose proof (respects_call (x (ins_op (ins (vm w1)))) w1 w1' Hs1) as Hc.
  destruct (call _ w1) as [[e|] w2|p w2];
    destruct (call _ w1') as [[e'|] w2'|p' w2'];
    cbn in Hc; try contradiction; try (destruct Hc; discriminate).
  - destruct Hc as [[= <-] Hs2]. split; [reflexivity|exact Hs2].
  - destruct Hc as [_ Hs2]. apply IH, Hs2.
  - exact Hc.
Qed.

(** The copy starts in the state of its original. *)
Lemma Copy_same_state w :
  slice_ok (hp w) (program (vm w)) -> slice_ok (hp w) (mem (vm w)) ->
  exists v' w',
    Copy w = Done v' w' /\ same_state w (World v' (hp w') (host w')).
Proof.
  intros Hprog Hmem. destruct w as [v h hst]. cbn [vm hp host] in *.
  unfold Copy. cbn [vm hp host].
  set (h1 := h ++ [replicate (s_len (program v)) 0]).
  set (p := Slice (length h) 0 (s_len (program v))).
  set (h2 := h1 ++ [replicate (s_len (mem v)) 0]).
  set (m := Slice (length h1) 0 (s_len (mem v))).
  change (make h (s_len (program v))) with (h1, p).
  change (make h1 (s_len (mem v))) with (h2, m). cbv iota beta zeta.
  cbn [program mem].
  assert (Hlen1 : length h1 = S (length h)).
  { unfold h1. rewrite length_app. cbn. lia. }
  assert (Hext : forall (l : loc) a, h !! l = Some a ->
            exists a', h2 !! l = Some a' /\ length a' = length a).
  { intros l a Hl. exists a. split; [|reflexivity].
    unfold h2, h1. apply lookup_app_l_Some, lookup_app_l_Some, Hl. }
  assert (Hpok : slice_ok h2 p).
  { exists (replicate (s_len (program v)) 0). split.
    - unfold h2, h1. apply lookup_app_l_Some.
      rewrite lookup_app_r, Nat.sub_diag by (cbn; lia). reflexivity.
    - rewrite length_replicate. cbn. lia. }
  assert (Hmok : slice_ok h2 m).
  { exists (replicate (s_len (mem v)) 0). split.
    - unfold h2. rewrite lookup_app_r, Nat.sub_diag by (cbn; lia). reflexivity.
    - rewrite length_replicate. cbn. lia. }
  pose proof (slice_ok_mono _ _ _ Hext Hprog) as Hprog2.
  pose proof (slice_ok_mono _ _ _ Hext Hmem) as Hmem2.
  assert (Hmem_lt : (s_arr (mem v) < length h)%nat).
  { destruct Hmem as (a & Ha & _). eapply lookup_lt_Some; eauto. }
  destruct (copy_spec h2 p (program v) Hpok Hprog2)
    as (_ & Hother3 & Hmono3 & _ & _).
  set (h3 := copy h2 p (program v)) in *.
  pose proof (slice_ok_mono _ _ _ Hmono3 Hmok) as Hmok3.
  pose proof (slice_ok_mono _ _ _ Hmono3 Hmem2) as Hmem3.
  destruct (copy_spec h3 m (mem v) Hmok3 Hmem3)
    as (_ & Hother4 & Hmono4 & Hcopied4 & _).
  set (h4 := copy h3 m (mem v)) in *.
  pose proof (slice_ok_mono _ _ _ Hmono4 Hmok3) as Hmok4.
  pose proof (slice_ok_mono _ _ _ Hmono4 Hmem3) as Hmem4.
  assert (Hsame : h3 !! s_arr (mem v) = h !! s_arr (mem v)).
  { rewrite Hother3 by (cbn; lia).
    destruct Hmem as (a & Ha & _). rewrite Ha.
    unfold h2, h1. apply lookup_app_l_Some, lookup_app_l_Some, Ha. }
  eexists _, _. split; [reflexivity|]. cbn [vm hp host].
  unfold same_state. cbn [vm hp host pos ins jumped relbase Input Output mem].
  repeat split; try assumption.
  apply sl_read_ext; [assumption..|reflexivity|].
  intros j Hj. unfold len in Hj. cbn [s_len m] in Hj.
  rewrite Hcopied4 by (unfold len; cbn; lia).
  apply sl_get_other_array. exact Hsame.
Qed.

(** X14.  A copy is a faithful snapshot: run for any number of passes, the
    copy ends as the original does when it is run instead, with
    the same returned error or the same panic, the same position,
    instruction, flag and relative base, the same host, and a memory that
    reads the same. *)
Theorem Copy_runs_alike (n : nat) w :
  slice_ok (hp w) (program (vm w)) -> slice_ok (hp w) (mem (vm w)) ->
  exists v' w',
    Copy w = Done v' w' /\
    match VM_Run n w, VM_Run n (World v' (hp w') (host w')) with
    | Some r, Some r' => same_result r r'
    | None, None => True
    | _, _ => False
    end.
Proof.
  intros Hprog Hmem.
  destruct (Copy_same_state w Hprog Hmem) as (v' & w' & Hc & Hs).
  exists v', w'. split; [exact Hc|]. apply same_state_VM_Run, Hs.
Qed.

End Snapshot.

Lemma Copy_runs_alike_witness :
  exists v' w' r r',
    Copy Examples.add_world = Done v' w' /\
    VM_Run 5 Examples.add_world = Some r /\
    VM_Run 5 (World v' (hp w') (host w')) = Some r' /\
    same_result r r'.
Proof.
  destruct (Copy_runs_alike 5 Examples.add_world)
    as (v' & w' & Hc & Hrun).
  - exists [1; 0; 0; 0; 99]. split; [reflexivity|cbn; lia].
  - exists [1; 0; 0; 0; 99]. split; [reflexivity|cbn; lia].
  - injection Hc as <- <-. eexists _, _, _, _.
    split; [reflexivity|]. split; [reflexivity|]. split; [reflexivity|].
    exact Hrun.
Defined.

(** * Instances of the further properties *)

Lemma VM_Run_footprint_witness :
  exists r,
    VM_Run 5 Examples.add_world = Some r /\
    mem (vm (result_world r)) = mem (vm Examples.add_world) /\
    hp (result_world r) !! 0%nat = Some [1; 0; 0; 0; 99] /\
    length (hp (result_world r)) = 2%nat.
Proof.
  eexists. split; [reflexivity|].
  destruct (VM_Run_footprint 5 Examples.add_world _ eq_refl)
    as [(_ & Hm & _) [Hlen Hw]].
  split; [exact Hm|]. split; [|exact Hlen].
  destruct (Hw 0%nat [1; 0; 0; 0; 99] eq_refl) as (a' & Ha' & _ & _).
  reflexivity.
Defined.

Lemma Run_footprint_witness :
  exists r,
    Examples.run_list 10 [1; 0; 0; 0; 99] 5 [] = Some r /\
    sl_read (hp (result_world r)) (Examples.prog_slice [1; 0; 0; 0; 99]) =
      [1; 0; 0; 0; 99].
Proof.
  eexists. split; [reflexivity|].
  destruct (Run_footprint (H:=Examples.io) (E:=string) 10
              (Examples.prog_slice [1; 0; 0; 0; 99]) (Examples.mem_slice 5)
              (Some Examples.input_hook) (Some Examples.output_hook)
              (Examples.heap_of [1; 0; 0; 0; 99] 5) (Examples.IO [] []) _ eq_refl)
    as [_ Hprog].
  rewrite Hprog by discriminate. reflexivity.
Defined.

Lemma opcode_footprint_witness :
  let w1 := Examples.decoded Examples.add_world in
  let w2 := result_world (call (x (ins_op (ins (vm w1)))) w1) in
  relbase (vm w2) = 0 /\ host w2 = Examples.IO [] [] /\
  pos (vm w2) = 1 /\ jumped (vm w2) = false.
Proof.
  destruct (opcode_footprint Examples.add_world
              (Examples.decoded Examples.add_world) eq_refl)
    as (Hrel & Hhost & _ & Hpos).
  cbv zeta. split; [apply Hrel; discriminate|].
  split; [apply Hhost; discriminate|]. apply Hpos; discriminate.
Defined.

Lemma VM_Run_panics_witness :
  exists w',
    VM_Run 2 Examples.runaway_world = Some (Panicked IndexOutOfRange w') /\
    (IndexOutOfRange = IndexOutOfRange \/
     IndexOutOfRange = GotHere (pos (vm w')) (len (mem (vm w')))).
Proof.
  eexists. split; [reflexivity|].
  apply (VM_Run_panics 2 Examples.runaway_world). reflexivity.
Defined.

Lemma parseInstruction_ignores_high_digits_witness :
  parseInstruction (E:=string) 1399 =
    (Instruction (Op "halt" 99 0 x_halt) [], None) /\
  parseInstruction (E:=string) 1000001 =
    (Instruction (Op "add" 1 3 x_add) [position; position; position], None).
Proof.
  split.
  - apply (parseInstruction_ignores_high_digits (E:=string) 99 13
             (Instruction (Op "halt" 99 0 x_halt) []) eq_refl). lia.
  - apply (parseInstruction_ignores_high_digits (E:=string) 1 10
             (Instruction (Op "add" 1 3 x_add) [position; position; position])
             eq_refl). lia.
Defined.

Lemma parseInstruction_mode_error_witness :
  exists j : nat,
    ops !! Z.rem 3001 100 = Some (Op "add" 1 3 x_add) /\
    Z.of_nat j < 3 /\ 1%nat = j /\ 3 = 3001 / 10 ^ (2 + Z.of_nat j).
Proof.
  destruct (parseInstruction_mode_error (E:=string) 3001 3
              (Instruction (Op "add" 1 3 x_add) [position]) eq_refl)
    as (j & Ho & Hj & Hl & Hw & _).
  exists j. auto.
Defined.

Lemma binary_opcodes_witness :
  exists w',
    call x_add (Examples.decoded Examples.add_world) = Done None w' /\
    writes_cell (Examples.decoded Examples.add_world) 0 2 w'.
Proof.
  apply (binary_opcodes (Examples.decoded Examples.add_world) 1 1 0 position
           x_add 2 eq_refl eq_refl eq_refl eq_refl).
  apply list_elem_of_here.
Defined.

Lemma hook_errors_witness :
  VM_Run 3 Examples.no_hook_world =
    Some (Done (Some ErrNoInput) (Examples.decoded Examples.no_hook_world)) /\
  hp (Examples.decoded Examples.no_hook_world) = hp Examples.no_hook_world.
Proof.
  destruct (hook_errors 2 Examples.no_hook_world
              (Examples.decoded Examples.no_hook_world) eq_refl eq_refl)
    as (Hhp & _ & Hin & _).
  split; [apply Hin; reflexivity|exact Hhp].
Defined.

Lemma hook_successes_witness :
  exists w2,
    iteration Examples.echo_world = Continue w2 /\
    host w2 = Examples.IO [] [] /\
    sl_get (hp w2) (mem (vm w2)) 0 = Some 42.
Proof.
  destruct (hook_successes Examples.echo_world
              (Examples.decoded Examples.echo_world) eq_refl) as [Hin _].
  destruct (Hin eq_refl Examples.input_hook 42 (Examples.IO [] []) 0 position
              eq_refl eq_refl eq_refl eq_refl)
    as (w2 & Hi & Hvm & Hhost & Hcell & _).
  exists w2. split; [exact Hi|]. split; [exact Hhost|].
  rewrite Hvm. exact Hcell.
Defined.

Lemma Parse_buildOut_witness :
  Parse (buildOut [1; -20; 0]) = Some [1; -20; 0].
Proof.
  apply (Parse_buildOut [1; -20; 0]); [discriminate|].
  repeat constructor; unfold int_min, int_max; lia.
Defined.

Lemma Parse_accepts_witness :
  length [1; -20; 3] = S (commas (list_ascii_of_string "1,-20,+3")).
Proof.
  apply (Parse_accepts (list_ascii_of_string "1,-20,+3") [1; -20; 3] eq_refl).
Defined.

Lemma buildOut_app_witness :
  buildOut ([1; 2] ++ [-3]) = buildOut [1; 2] ++ comma :: buildOut [-3].
Proof. apply (buildOut_app [1; 2] [-3]); discriminate. Defined.

(** A space after a comma, a trailing comma, the empty text and a value
    past the largest [int] are all rejected. *)
Example Parse_rejects :
  Parse (list_ascii_of_string "1, 2") = None /\
  Parse (list_ascii_of_string "1,2,") = None /\
  Parse [] = None /\
  Parse (list_ascii_of_string "9223372036854775808") = None.
Proof. repeat split. Qed.
